(** * CheckOff: the task-list screen of [app/(tabs)/index.tsx]

    A shallow embedding of the state and the handlers of the
    [CheckOffScreen] component, together with the parts of the JavaScript
    runtime the handlers call ([String.prototype.trim],
    [Number.prototype.toString] on integers, [Math.round] on doubles,
    [JSON.stringify] and [JSON.parse]) and of [AsyncStorage].

    The component keeps three [useState] cells.  A handler is a function
    from the state before the event to the state after it; what the
    environment contributes to an event (the reading of the clock, the
    content of the storage) is an argument of the handler.  Handlers run
    one at a time, each on the state the previous one left.

    The source holds two versions of the screen.  The handlers they share
    are the same text; the embedding follows the later version, which adds
    the filter, the counts and [clearCompleted]. *)

From Stdlib Require Import ZArith NArith List Bool Lia String Ascii.
From Stdlib Require Import DecimalString DecimalZ.
From Stdlib Require Import Floats.SpecFloat.
From stdpp Require Import base decidable list gmap.

Import ListNotations.
Local Open Scope Z_scope.

(** ** JavaScript strings

    A JavaScript string is a finite sequence of UTF-16 code units.  [===]
    on strings compares the two sequences unit by unit. *)

Abbreviation jsstring := (list N).

(** An ASCII literal as a sequence of code units. *)
Definition js (s : string) : jsstring :=
  map N_of_ascii (list_ascii_of_string s).

(** [WhiteSpace] and [LineTerminator] code points of ECMAScript, the ones
    [String.prototype.trim] strips.  All of them lie in the basic
    multilingual plane, so each is a single code unit. *)
Definition isWhiteSpace (c : N) : bool :=
  ((c =? 0x0009) || (c =? 0x000B) || (c =? 0x000C) || (c =? 0x0020)
   || (c =? 0x00A0) || (c =? 0xFEFF) || (c =? 0x1680)
   || ((0x2000 <=? c) && (c <=? 0x200A))
   || (c =? 0x202F) || (c =? 0x205F) || (c =? 0x3000))%N.

Definition isLineTerminator (c : N) : bool :=
  ((c =? 0x000A) || (c =? 0x000D) || (c =? 0x2028) || (c =? 0x2029))%N.

Definition isTrimmed (c : N) : bool := isWhiteSpace c || isLineTerminator c.

Fixpoint trimStart (s : jsstring) : jsstring :=
  match s with
  | [] => []
  | c :: rest => if isTrimmed c then trimStart rest else s
  end.

Definition trimEnd (s : jsstring) : jsstring := rev (trimStart (rev s)).

(** [String.prototype.trim] *)
Definition trim (s : jsstring) : jsstring := trimEnd (trimStart s).

(** ToBoolean on a string: only the empty string is falsy. *)
Definition truthy (s : jsstring) : bool :=
  match s with [] => false | _ :: _ => true end.

(** [Number.prototype.toString] on an integral Number of magnitude below
    1e21 (every time value of [Date] is one): the decimal digits, with a
    leading minus sign for a negative number. *)
Definition Number_toString (n : Z) : jsstring :=
  js (NilZero.string_of_int (Z.to_int n)).

(** ** Numbers

    A JavaScript Number is an IEEE 754 binary64 value; [/] and [*] round to
    nearest, ties to even. *)

Definition prec : Z := 53.
Definition emax : Z := 1024.

(** The Number an integer literal or an array length denotes. *)
Definition Number_of_Z (n : Z) : spec_float := binary_normalize prec emax n 0 false.

Definition Number_div (x y : spec_float) : spec_float := SFdiv prec emax x y.
Definition Number_mul (x y : spec_float) : spec_float := SFmul prec emax x y.

(** The integer [floor (m * 2^e + 1/2)], computed exactly. *)
Definition floor_plus_half (m e : Z) : Z :=
  if 0 <=? e then m * 2 ^ e
  else (2 * m + 2 ^ (- e)) / 2 ^ (1 - e).

(** [Math.round]: the integral Number closest to [x], the one nearer to
    positive infinity when two are equally close; a result of zero keeps
    the sign of [x]; infinities, zeros and NaN are returned as they are. *)
Definition Math_round (x : spec_float) : spec_float :=
  match x with
  | S754_finite s m e =>
      let n := floor_plus_half (cond_Zopp s (Zpos m)) e in
      if n =? 0 then S754_zero s else binary_normalize prec emax n 0 false
  | _ => x
  end.

(** ** JSON values and [JSON.parse]

    The value [JSON.parse] builds.  A number is kept as the text of its
    literal; the members of an object are kept in the order of the text,
    a later member with the same key overriding an earlier one on lookup. *)

#[local] Set Warnings "-register-all".
Inductive json :=
| JNull
| JBool (b : bool)
| JNumber (literal : jsstring)
| JString (s : jsstring)
| JArray (elements : list json)
| JObject (members : list (jsstring * json)).

Definition ch (a : ascii) : N := N_of_ascii a.

Definition quotationMark : N := 0x22.
Definition reverseSolidus : N := 0x5C.

(** JSON white space: tab, line feed, carriage return, space. *)
Definition isJSONWhiteSpace (c : N) : bool :=
  ((c =? 0x09) || (c =? 0x0A) || (c =? 0x0D) || (c =? 0x20))%N.

Fixpoint skipWS (s : jsstring) : jsstring :=
  match s with
  | [] => []
  | c :: rest => if isJSONWhiteSpace c then skipWS rest else s
  end.

Definition isDigit (c : N) : bool := ((ch "0" <=? c) && (c <=? ch "9"))%N.

Definition hexValue (c : N) : option N :=
  if isDigit c then Some (c - ch "0")%N
  else if ((ch "a" <=? c) && (c <=? ch "f"))%N then Some (c - ch "a" + 10)%N
  else if ((ch "A" <=? c) && (c <=? ch "F"))%N then Some (c - ch "A" + 10)%N
  else None.

Definition hex4Value (h1 h2 h3 h4 : N) : option N :=
  match hexValue h1, hexValue h2, hexValue h3, hexValue h4 with
  | Some d1, Some d2, Some d3, Some d4 =>
      Some (((d1 * 16 + d2) * 16 + d3) * 16 + d4)%N
  | _, _, _, _ => None
  end.

(** The character a single-character escape stands for. *)
Definition unescape (e : N) : option N :=
  if (e =? quotationMark)%N then Some quotationMark
  else if (e =? reverseSolidus)%N then Some reverseSolidus
  else if (e =? ch "/")%N then Some (ch "/")
  else if (e =? ch "b")%N then Some 0x08%N
  else if (e =? ch "f")%N then Some 0x0C%N
  else if (e =? ch "n")%N then Some 0x0A%N
  else if (e =? ch "r")%N then Some 0x0D%N
  else if (e =? ch "t")%N then Some 0x09%N
  else None.

(** The characters of a string literal after its opening quotation mark:
    the string denoted and the text after the closing quotation mark. *)
Fixpoint parseChars (s : jsstring) : option (jsstring * jsstring) :=
  match s with
  | [] => None
  | c :: rest =>
      if (c =? quotationMark)%N then Some ([], rest)
      else if (c =? reverseSolidus)%N then
        match rest with
        | [] => None
        | e :: rest1 =>
            if (e =? ch "u")%N then
              match rest1 with
              | h1 :: h2 :: h3 :: h4 :: rest2 =>
                  match hex4Value h1 h2 h3 h4 with
                  | Some u =>
                      match parseChars rest2 with
                      | Some (str, r) => Some (u :: str, r)
                      | None => None
                      end
                  | None => None
                  end
              | _ => None
              end
            else
              match unescape e with
              | Some u =>
                  match parseChars rest1 with
                  | Some (str, r) => Some (u :: str, r)
                  | None => None
                  end
              | None => None
              end
        end
      else if (c <? 0x20)%N then None
      else
        match parseChars rest with
        | Some (str, r) => Some (c :: str, r)
        | None => None
        end
  end.

Fixpoint takeDigits (s : jsstring) : jsstring * jsstring :=
  match s with
  | [] => ([], [])
  | c :: rest =>
      if isDigit c then let (ds, r) := takeDigits rest in (c :: ds, r)
      else ([], s)
  end.

(** A number literal: an optional minus sign; a zero, or a non-zero digit
    and further digits; optionally a point and one or more digits;
    optionally [e] or [E], an optional sign and one or more digits.  Each
    part returns its text and what follows it. *)

Definition takeSign (s : jsstring) : jsstring * jsstring :=
  match s with
  | c :: r => if (c =? ch "-")%N then ([c], r) else ([], s)
  | [] => ([], s)
  end.

Definition takeInt (s : jsstring) : option (jsstring * jsstring) :=
  match s with
  | [] => None
  | c :: r =>
      if (c =? ch "0")%N then Some ([c], r)
      else if isDigit c then let (ds, r') := takeDigits r in Some (c :: ds, r')
      else None
  end.

Definition takeFrac (s : jsstring) : option (jsstring * jsstring) :=
  match s with
  | p :: r =>
      if (p =? ch ".")%N then
        match takeDigits r with
        | ([], _) => None
        | (ds, r') => Some (p :: ds, r')
        end
      else Some ([], s)
  | [] => Some ([], s)
  end.

Definition takeExp (s : jsstring) : option (jsstring * jsstring) :=
  match s with
  | e :: r =>
      if ((e =? ch "e") || (e =? ch "E"))%N then
        let (esign, r1) :=
          match r with
          | g :: r' =>
              if ((g =? ch "+") || (g =? ch "-"))%N then ([g], r') else ([], r)
          | [] => ([], r)
          end in
        match takeDigits r1 with
        | ([], _) => None
        | (ds, r2) => Some (e :: esign ++ ds, r2)
        end
      else Some ([], s)
  | [] => Some ([], s)
  end.

Definition parseNumber (s : jsstring) : option (jsstring * jsstring) :=
  let (sign, s1) := takeSign s in
  match takeInt s1 with
  | None => None
  | Some (int, s2) =>
      match takeFrac s2 with
      | None => None
      | Some (fr, s3) =>
          match takeExp s3 with
          | None => None
          | Some (ex, s4) => Some (sign ++ int ++ fr ++ ex, s4)
          end
      end
  end.

(** [expect lit s]: [s] without its prefix [lit]. *)
Fixpoint expect (lit s : jsstring) : option jsstring :=
  match lit with
  | [] => Some s
  | l :: lit' =>
      match s with
      | c :: rest => if (c =? l)%N then expect lit' rest else None
      | [] => None
      end
  end.

(** The elements of an array after the first one has been found to exist;
    [pv] parses one value, [k] bounds the number of elements. *)
Fixpoint parseElements (pv : jsstring -> option (json * jsstring))
    (k : nat) (s : jsstring) : option (list json * jsstring) :=
  match k with
  | O => None
  | S k' =>
      match pv s with
      | None => None
      | Some (v, rest) =>
          match skipWS rest with
          | [] => None
          | c :: rest1 =>
              if (c =? ch ",")%N then
                match parseElements pv k' rest1 with
                | Some (vs, r) => Some (v :: vs, r)
                | None => None
                end
              else if (c =? ch "]")%N then Some ([v], rest1)
              else None
          end
      end
  end.

(** The members of a non-empty object. *)
Fixpoint parseMembers (pv : jsstring -> option (json * jsstring))
    (k : nat) (s : jsstring) : option (list (jsstring * json) * jsstring) :=
  match k with
  | O => None
  | S k' =>
      match skipWS s with
      | [] => None
      | q :: rest =>
          if (q =? quotationMark)%N then
            match parseChars rest with
            | None => None
            | Some (key, rest1) =>
                match skipWS rest1 with
                | [] => None
                | colon :: rest2 =>
                    if (colon =? ch ":")%N then
                      match pv rest2 with
                      | None => None
                      | Some (v, rest3) =>
                          match skipWS rest3 with
                          | [] => None
                          | c :: rest4 =>
                              if (c =? ch ",")%N then
                                match parseMembers pv k' rest4 with
                                | Some (ms, r) => Some ((key, v) :: ms, r)
                                | None => None
                                end
                              else if (c =? ch "}")%N then Some ([(key, v)], rest4)
                              else None
                          end
                      end
                    else None
                end
            end
          else None
      end
  end.

(** One JSON value, after optional white space; [d] bounds the nesting. *)
Fixpoint parseValue (d : nat) (s : jsstring) : option (json * jsstring) :=
  match d with
  | O => None
  | S d' =>
      match skipWS s with
      | [] => None
      | c :: rest =>
          if (c =? ch "{")%N then
            match skipWS rest with
            | [] => None
            | c1 :: rest1 =>
                if (c1 =? ch "}")%N then Some (JObject [], rest1)
                else
                  match parseMembers (parseValue d') (length rest) rest with
                  | Some (ms, r) => Some (JObject ms, r)
                  | None => None
                  end
            end
          else if (c =? ch "[")%N then
            match skipWS rest with
            | [] => None
            | c1 :: rest1 =>
                if (c1 =? ch "]")%N then Some (JArray [], rest1)
                else
                  match parseElements (parseValue d') (length rest) rest with
                  | Some (vs, r) => Some (JArray vs, r)
                  | None => None
                  end
            end
          else if (c =? quotationMark)%N then
            match parseChars rest with
            | Some (str, r) => Some (JString str, r)
            | None => None
            end
          else if (c =? ch "t")%N then
            match expect (js "rue") rest with
            | Some r => Some (JBool true, r)
            | None => None
            end
          else if (c =? ch "f")%N then
            match expect (js "alse") rest with
            | Some r => Some (JBool false, r)
            | None => None
            end
          else if (c =? ch "n")%N then
            match expect (js "ull") rest with
            | Some r => Some (JNull, r)
            | None => None
            end
          else
            match parseNumber (c :: rest) with
            | Some (lit, r) => Some (JNumber lit, r)
            | None => None
            end
      end
  end.

(** [JSON.parse]: [None] is the SyntaxError it throws.  The text holds one
    value between optional white space; a value nests less deep than the
    text is long. *)
Definition JSON_parse (text : jsstring) : option json :=
  match parseValue (S (length text)) text with
  | Some (v, rest) =>
      match skipWS rest with
      | [] => Some v
      | _ :: _ => None
      end
  | None => None
  end.

(** ** The data of the screen *)

Record TodoItem := {
  id : jsstring;
  title : jsstring;
  completed : bool
}.

Inductive Filter := All | Active | Completed.

(** The three [useState] cells of the component. *)
Record AppState := {
  tasks : list TodoItem;
  inputValue : jsstring;
  filter : Filter
}.

Definition initialState : AppState :=
  {| tasks := []; inputValue := []; filter := All |}.

Definition setTasks (f : list TodoItem -> list TodoItem) (st : AppState) : AppState :=
  {| tasks := f (tasks st); inputValue := inputValue st; filter := filter st |}.

Definition setInputValue (v : jsstring) (st : AppState) : AppState :=
  {| tasks := tasks st; inputValue := v; filter := filter st |}.

Definition setFilter (f : Filter) (st : AppState) : AppState :=
  {| tasks := tasks st; inputValue := inputValue st; filter := f |}.

(** ** [JSON.stringify] on the task list *)

Definition isLeadingSurrogate (c : N) : bool := ((0xD800 <=? c) && (c <=? 0xDBFF))%N.
Definition isTrailingSurrogate (c : N) : bool := ((0xDC00 <=? c) && (c <=? 0xDFFF))%N.

Definition hexDigit (d : N) : N :=
  if (d <? 10)%N then (ch "0" + d)%N else (ch "a" + (d - 10))%N.

(** [UnicodeEscape]: a reverse solidus, [u] and four lower-case hexadecimal digits. *)
Definition UnicodeEscape (c : N) : jsstring :=
  [reverseSolidus; ch "u";
   hexDigit (c / 4096); hexDigit ((c / 256) mod 16);
   hexDigit ((c / 16) mod 16); hexDigit (c mod 16)]%N.

(** One code point that is not a surrogate pair, as [QuoteJSONString] writes it. *)
Definition quoteCodeUnit (c : N) : jsstring :=
  if (c =? 0x08)%N then [reverseSolidus; ch "b"]
  else if (c =? 0x09)%N then [reverseSolidus; ch "t"]
  else if (c =? 0x0A)%N then [reverseSolidus; ch "n"]
  else if (c =? 0x0C)%N then [reverseSolidus; ch "f"]
  else if (c =? 0x0D)%N then [reverseSolidus; ch "r"]
  else if (c =? quotationMark)%N then [reverseSolidus; quotationMark]
  else if (c =? reverseSolidus)%N then [reverseSolidus; reverseSolidus]
  else if ((c <? 0x20) || isLeadingSurrogate c || isTrailingSurrogate c)%N
  then UnicodeEscape c
  else [c].

(** The code points of the string in turn: a leading surrogate followed by
    a trailing one is one code point and is written as it is; a surrogate
    on its own is escaped. *)
Fixpoint quoteChars (s : jsstring) : jsstring :=
  match s with
  | [] => []
  | c :: rest =>
      if isLeadingSurrogate c then
        match rest with
        | d :: rest1 =>
            if isTrailingSurrogate d then c :: d :: quoteChars rest1
            else UnicodeEscape c ++ quoteChars rest
        | [] => UnicodeEscape c
        end
      else quoteCodeUnit c ++ quoteChars rest
  end.

Definition QuoteJSONString (s : jsstring) : jsstring :=
  quotationMark :: quoteChars s ++ [quotationMark].

(** [SerializeJSONObject] on a task: its own properties in creation order,
    which is [id], [title], [completed] for a task the component made. *)
Definition stringifyTodoItem (task : TodoItem) : jsstring :=
  ch "{" :: QuoteJSONString (js "id") ++ ch ":" :: QuoteJSONString (id task)
  ++ ch "," :: QuoteJSONString (js "title") ++ ch ":" :: QuoteJSONString (title task)
  ++ ch "," :: QuoteJSONString (js "completed") ++ ch ":"
     :: (if completed task then js "true" else js "false")
  ++ [ch "}"].

(** The elements of an array, separated by commas. *)
Fixpoint joinItems (l : list TodoItem) : jsstring :=
  match l with
  | [] => []
  | [task] => stringifyTodoItem task
  | task :: rest => stringifyTodoItem task ++ ch "," :: joinItems rest
  end.

(** [JSON.stringify(nextTasks)] *)
Definition JSON_stringify (nextTasks : list TodoItem) : jsstring :=
  ch "[" :: joinItems nextTasks ++ [ch "]"].

(** ** A parsed value read at the type [TodoItem[]]

    [setTasks(JSON.parse(storedTasks))] stores the parsed value as it is.
    The value is a [TodoItem[]] when it is an array of objects whose [id]
    and [title] are strings and whose [completed] is a boolean; further
    properties of such an object are not read by any handler.  The state
    of the embedding keeps the three properties of each task and nothing
    else, which is all there is in a text [saveData] wrote. *)

Fixpoint getProperty (key : jsstring) (members : list (jsstring * json)) : option json :=
  match members with
  | [] => None
  | (k, v) :: rest =>
      match getProperty key rest with
      | Some v' => Some v'
      | None => if bool_decide (k = key) then Some v else None
      end
  end.

Definition asTodoItem (v : json) : option TodoItem :=
  match v with
  | JObject members =>
      match getProperty (js "id") members,
            getProperty (js "title") members,
            getProperty (js "completed") members with
      | Some (JString i), Some (JString t), Some (JBool c) =>
          Some {| id := i; title := t; completed := c |}
      | _, _, _ => None
      end
  | _ => None
  end.

Fixpoint asTodoItemList (vs : list json) : option (list TodoItem) :=
  match vs with
  | [] => Some []
  | v :: rest =>
      match asTodoItem v, asTodoItemList rest with
      | Some task, Some l => Some (task :: l)
      | _, _ => None
      end
  end.

Definition asTodoItems (v : json) : option (list TodoItem) :=
  match v with
  | JArray vs => asTodoItemList vs
  | _ => None
  end.

(** ** AsyncStorage

    A key-value store of strings that can be out of reach, in which case
    its promises reject. *)

Record AsyncStorage := {
  reachable : bool;
  items : gmap (list N) (list N)
}.

Inductive getItemResult :=
| Rejected
| Resolved (value : option jsstring).

Definition getItem (key : jsstring) (storage : AsyncStorage) : getItemResult :=
  if reachable storage then Resolved (items storage !! key) else Rejected.

(** [None] is a rejected promise. *)
Definition setItem (key value : jsstring) (storage : AsyncStorage) : option AsyncStorage :=
  if reachable storage
  then Some {| reachable := true; items := <[key := value]> (items storage) |}
  else None.

Definition STORAGE_KEY : jsstring := js "checkoff_tasks".

(** What a handler leaves behind: the next state of the component, or, when
    [setTasks] was given a value that is not a [TodoItem[]], that value. *)
Inductive outcome :=
| Rendered (st : AppState)
| IllTyped (v : json).

(** ** The handlers *)

(** [loadData]: a rejected [getItem] and a SyntaxError of [JSON.parse] are
    caught and logged; a [null] or empty stored string is skipped. *)
Definition loadData (storage : AsyncStorage) (st : AppState) : outcome :=
  match getItem STORAGE_KEY storage with
  | Rejected => Rendered st
  | Resolved None => Rendered st
  | Resolved (Some storedTasks) =>
      if truthy storedTasks then
        match JSON_parse storedTasks with
        | None => Rendered st
        | Some v =>
            match asTodoItems v with
            | Some l => Rendered (setTasks (fun _ => l) st)
            | None => IllTyped v
            end
        end
      else Rendered st
  end.

(** [saveData]: a rejected [setItem] is caught and logged. *)
Definition saveData (nextTasks : list TodoItem) (storage : AsyncStorage) : AsyncStorage :=
  match setItem STORAGE_KEY (JSON_stringify nextTasks) storage with
  | Some storage' => storage'
  | None => storage
  end.

(** [addTask]; [now] is the value [Date.now()] returns at the call. *)
Definition addTask (now : Z) (st : AppState) : AppState :=
  let trimmedValue := trim (inputValue st) in
  if negb (truthy trimmedValue) then st
  else
    let newTask :=
      {| id := Number_toString now; title := trimmedValue; completed := false |} in
    setInputValue [] (setTasks (fun currentTasks => newTask :: currentTasks) st).

Definition toggleTask (id0 : jsstring) (st : AppState) : AppState :=
  setTasks (fun currentTasks =>
    map (fun task =>
           if bool_decide (id task = id0)
           then {| id := id task; title := title task;
                   completed := negb (completed task) |}
           else task)
        currentTasks) st.

Definition deleteTask (id0 : jsstring) (st : AppState) : AppState :=
  setTasks (fun currentTasks =>
    List.filter (fun task => negb (bool_decide (id task = id0))) currentTasks) st.

Definition clearCompleted (st : AppState) : AppState :=
  setTasks (fun currentTasks =>
    List.filter (fun task => negb (completed task)) currentTasks) st.

(** ** Derived values *)

Definition totalCount (st : AppState) : Z := Z.of_nat (length (tasks st)).

Definition completedCount (st : AppState) : Z :=
  Z.of_nat (length (List.filter (fun task => completed task) (tasks st))).

Definition activeCount (st : AppState) : Z := totalCount st - completedCount st.

(** [totalCount ? Math.round((completedCount / totalCount) * 100) : 0] *)
Definition completionRate (st : AppState) : spec_float :=
  if totalCount st =? 0 then Number_of_Z 0
  else Math_round
         (Number_mul
            (Number_div (Number_of_Z (completedCount st)) (Number_of_Z (totalCount st)))
            (Number_of_Z 100)).

Definition filteredTasks (st : AppState) : list TodoItem :=
  match filter st with
  | Active => List.filter (fun task => negb (completed task)) (tasks st)
  | Completed => List.filter (fun task => completed task) (tasks st)
  | All => tasks st
  end.

(** ** Sequences of operations

    The operations of the store as the view layer triggers them:
    hydration reads the storage as it is at that moment, [addTask] is the
    user typing [rawTitle] and submitting at clock reading [now]. *)

Inductive op :=
| Hydrate (storage : AsyncStorage)
| AddTask (rawTitle : jsstring) (now : Z)
| ToggleTask (id0 : jsstring)
| DeleteTask (id0 : jsstring)
| ClearCompleted.

Definition step (o : op) (st : AppState) : outcome :=
  match o with
  | Hydrate storage => loadData storage st
  | AddTask rawTitle now => Rendered (addTask now (setInputValue rawTitle st))
  | ToggleTask id0 => Rendered (toggleTask id0 st)
  | DeleteTask id0 => Rendered (deleteTask id0 st)
  | ClearCompleted => Rendered (clearCompleted st)
  end.

Fixpoint run (ops : list op) (st : AppState) : outcome :=
  match ops with
  | [] => Rendered st
  | o :: rest =>
      match step o st with
      | Rendered st' => run rest st'
      | IllTyped v => IllTyped v
      end
  end.

(** The value [JSON.parse] builds from the text [JSON.stringify] writes for a task. *)
Definition jsonOfTodoItem (task : TodoItem) : json :=
  JObject [(js "id", JString (id task));
           (js "title", JString (title task));
           (js "completed", JBool (completed task))].

(** A stored blob read back as a task list: [JSON.parse], then the value
    read at the type [TodoItem[]]. *)
Definition deserialize (blob : jsstring) : option (list TodoItem) :=
  match JSON_parse blob with
  | Some v => asTodoItems v
  | None => None
  end.

(** [consChar c o]: the string parsed so far, one code unit longer. *)
Definition consChar (c : N) (o : option (jsstring * jsstring)) : option (jsstring * jsstring) :=
  match o with
  | Some (str, r) => Some (c :: str, r)
  | None => None
  end.

(** A parser that returns a value has read at least one code unit. *)
Definition consumes (pv : jsstring -> option (json * jsstring)) : Prop :=
  forall s v r, pv s = Some (v, r) -> (length r < length s)%nat.

(** The clock readings at which a sequence of operations adds tasks. *)
Fixpoint clocks (ops : list op) : list Z :=
  match ops with
  | [] => []
  | AddTask _ now :: rest => now :: clocks rest
  | _ :: rest => clocks rest
  end.

Definition isHydrate (o : op) : bool :=
  match o with Hydrate _ => true | _ => false end.

(** Every task the sequence adds gets an id no task of the list carries at
    that moment, and every hydration installs a list with pairwise distinct ids. *)
Fixpoint freshIds (ops : list op) (st : AppState) : Prop :=
  match ops with
  | [] => True
  | o :: rest =>
      match o with
      | AddTask rawTitle now =>
          trim rawTitle <> [] -> Number_toString now ∉ map id (tasks st)
      | Hydrate storage =>
          forall st', loadData storage st = Rendered st' -> NoDup (map id (tasks st'))
      | _ => True
      end
      /\ forall st', step o st = Rendered st' -> freshIds rest st'
  end.

(** Two tasks submitted within the same millisecond. *)
Definition twoAtOnce : list op :=
  [AddTask (js "Buy milk") 1700000000000; AddTask (js "Write report") 1700000000000].

Definition collided : AppState :=
  {| tasks :=
       [{| id := js "1700000000000"; title := js "Write report"; completed := false |};
        {| id := js "1700000000000"; title := js "Buy milk"; completed := false |}];
     inputValue := [];
     filter := All |}.

(** The completion rate as the specification words it: 0 for an empty
    list, otherwise [100 * completed / total] rounded to the nearest
    integer, a half rounding up. *)
Definition roundHalfUp (num den : Z) : Z := (2 * num + den) / (2 * den).

Definition spec_completionRate (st : AppState) : Z :=
  if totalCount st =? 0 then 0
  else roundHalfUp (100 * completedCount st) (totalCount st).

(** Forty tasks, the twenty-three most recent ones completed. *)
Definition fortyTasks : AppState :=
  {| tasks :=
       map (fun n : nat =>
              {| id := Number_toString (1700000000040 - Z.of_nat n);
                 title := js "task";
                 completed := (n <? 23)%nat |})
           (seq 0 40);
     inputValue := [];
     filter := All |}.

Definition spec_float_eqb (x y : spec_float) : bool :=
  match x, y with
  | S754_zero s, S754_zero s' => Bool.eqb s s'
  | S754_infinity s, S754_infinity s' => Bool.eqb s s'
  | S754_nan, S754_nan => true
  | S754_finite s m e, S754_finite s' m' e' =>
      Bool.eqb s s' && (m =? m')%positive && (e =? e')
  | _, _ => false
  end.

(** The rate the component computes from the two counts. *)
Definition rateOf (completedCount totalCount : Z) : spec_float :=
  if totalCount =? 0 then Number_of_Z 0
  else Math_round
         (Number_mul
            (Number_div (Number_of_Z completedCount) (Number_of_Z totalCount))
            (Number_of_Z 100)).

(** Do the component and the specification agree on every list of fewer
    than [n] tasks? *)
Definition ratesAgreeBelow (n : nat) : bool :=
  forallb (fun t : nat =>
    forallb (fun c : nat =>
      spec_float_eqb (rateOf (Z.of_nat c) (Z.of_nat t))
        (Number_of_Z (if Z.of_nat t =? 0 then 0
                      else roundHalfUp (100 * Z.of_nat c) (Z.of_nat t))))
      (seq 0 (S t)))
    (seq 0 n).

(** ** The screen with its effects and its controls

    The component together with the storage it writes to.  Requests reach
    the storage in the order they are issued, and a handler runs on the
    state the last render left. *)

Record World := {
  screen : AppState;
  disk : AsyncStorage
}.

(** [useEffect(() => { saveData(tasks); }, [tasks])]: runs after the first
    render and after every render in which [tasks] is a new array. *)
Definition tasksEffect (st : AppState) (d : AsyncStorage) : AsyncStorage :=
  saveData (tasks st) d.

(** Did [loadData] reach its call of [setTasks]? *)
Definition hydrated (d : AsyncStorage) : bool :=
  match getItem STORAGE_KEY d with
  | Resolved (Some storedTasks) =>
      truthy storedTasks
      && match JSON_parse storedTasks with Some _ => true | None => false end
  | _ => false
  end.

(** The two effects of the first render, in the order they are declared:
    [loadData()] issues its [getItem], the tasks effect saves the empty
    list; when [loadData] then calls [setTasks], the tasks effect runs
    again on the list installed.  [None]: [setTasks] was given a value that
    is not a [TodoItem[]]. *)
Definition mount (d : AsyncStorage) : option World :=
  let d1 := tasksEffect initialState d in
  match loadData d initialState with
  | Rendered st =>
      Some {| screen := st;
              disk := if hydrated d then tasksEffect st d1 else d1 |}
  | IllTyped _ => None
  end.

(** [disabled={completedCount === 0}] on the Clear button. *)
Definition clearDisabled (st : AppState) : bool := completedCount st =? 0.

(** What the user can do: type into the input, submit it (at clock reading
    [now]), press the row of the list that is shown at position [row] or
    its Delete button, press a filter button, press Clear. *)
Inductive event :=
| ChangeText (text : jsstring)
| Submit (now : Z)
| PressTask (row : nat)
| PressDelete (row : nat)
| PressFilter (f : Filter)
| PressClear.

(** A handler that calls [setTasks] with a new array makes the tasks effect run. *)
Definition commit (st : AppState) (w : World) : World :=
  {| screen := st; disk := tasksEffect st (disk w) |}.

Definition dispatch (e : event) (w : World) : World :=
  let st := screen w in
  match e with
  | ChangeText text => {| screen := setInputValue text st; disk := disk w |}
  | Submit now =>
      if truthy (trim (inputValue st)) then commit (addTask now st) w else w
  | PressTask row =>
      match filteredTasks st !! row with
      | Some item => commit (toggleTask (id item) st) w
      | None => w
      end
  | PressDelete row =>
      match filteredTasks st !! row with
      | Some item => commit (deleteTask (id item) st) w
      | None => w
      end
  | PressFilter f => {| screen := setFilter f st; disk := disk w |}
  | PressClear =>
      if clearDisabled st then w else commit (clearCompleted st) w
  end.

Fixpoint runEvents (es : list event) (w : World) : World :=
  match es with
  | [] => w
  | e :: rest => runEvents rest (dispatch e w)
  end.

(** The storage holds the text of the list on the screen. *)
Definition synced (w : World) : Prop :=
  items (disk w) !! STORAGE_KEY = Some (JSON_stringify (tasks (screen w))).

(** The storage holds, under the key of the app, nothing, a text that is
    not JSON, or a text [saveData] wrote. *)
Definition writtenByApp (d : AsyncStorage) : Prop :=
  match items d !! STORAGE_KEY with
  | None => True
  | Some blob => JSON_parse blob = None \/ exists l, blob = JSON_stringify l
  end.

(** [addTask] as the render of [rendered] created it, called when the state
    is [st]: it reads the [inputValue] of its own render; its two updates
    apply to the state of the moment.  [addTask now st] is the handler of
    the render of [st] called on [st]. *)
Definition addTaskFrom (rendered : AppState) (now : Z) (st : AppState) : AppState :=
  let trimmedValue := trim (inputValue rendered) in
  if negb (truthy trimmedValue) then st
  else
    let newTask :=
      {| id := Number_toString now; title := trimmedValue; completed := false |} in
    setInputValue [] (setTasks (fun currentTasks => newTask :: currentTasks) st).

(** A title as [addTask] leaves it: not empty, no white space at either end. *)
Definition trimmedTitle (task : TodoItem) : Prop :=
  title task <> [] /\ trim (title task) = title task.

Example trim_spaces : trim (js "   ") = [].
Proof. reflexivity. Qed.

Example trim_inner : trim (js "  Buy  milk ") = js "Buy  milk".
Proof. reflexivity. Qed.

Example toString_now : Number_toString 1700000000000 = js "1700000000000".
Proof. reflexivity. Qed.

(** * Properties *)

(** ** Lists *)

Section Filter.
Context {A : Type} (f : A -> bool).

Lemma filter_sublist (l : list A) : List.filter f l `sublist_of` l.
Proof.
  induction l as [|x l IH]; simpl.
  - constructor.
  - destruct (f x); by constructor.
Qed.

Lemma filter_all (l : list A) :
  (forall x, In x l -> f x = true) -> List.filter f l = l.
Proof.
  induction l as [|x l IH]; simpl; intros H; [done|].
  rewrite (H x) by auto. f_equal. apply IH. auto.
Qed.

Lemma filter_length_le (l : list A) : (length (List.filter f l) <= length l)%nat.
Proof. apply sublist_length, filter_sublist. Qed.

Lemma filter_split_length (l : list A) :
  (length (List.filter f l) + length (List.filter (fun x => negb (f x)) l)
   = length l)%nat.
Proof.
  induction l as [|x l IH]; simpl; [done|].
  destruct (f x); simpl; lia.
Qed.

End Filter.

Lemma lookup_map {A B : Type} (f : A -> B) (l : list A) (i : nat) :
  map f l !! i = f <$> l !! i.
Proof. exact (list_lookup_fmap f l i). Qed.

(** At most one element of a list has a given key when the keys are pairwise distinct. *)
Lemma filter_key_NoDup {A K : Type} `{EqDecision K} (key : A -> K) (k : K) (l : list A) :
  NoDup (map key l) ->
  (length (List.filter (fun x => bool_decide (key x = k)) l) <= 1)%nat.
Proof.
  induction l as [|x l IH]; simpl; intros Hnd; [lia|].
  apply NoDup_cons in Hnd as [Hx Hnd].
  case_bool_decide as Hk; simpl; [|auto].
  assert (List.filter (fun x => bool_decide (key x = k)) l = []) as ->; [|simpl; lia].
  clear IH Hnd. induction l as [|y l IH]; simpl; [done|].
  case_bool_decide as Hy.
  - exfalso. apply Hx. simpl. rewrite Hk, <- Hy. constructor.
  - apply IH. intros Hin. apply Hx. simpl. by constructor.
Qed.

(** ** [trim] *)

Lemma trimStart_decompose (s : jsstring) :
  exists pre, s = pre ++ trimStart s /\ forallb isTrimmed pre = true.
Proof.
  induction s as [|c s [pre [Hs Hpre]]]; simpl.
  - by exists [].
  - destruct (isTrimmed c) eqn:Hc.
    + exists (c :: pre). simpl. rewrite Hc, Hpre. split; [congruence|done].
    + by exists [].
Qed.

Lemma trimStart_head (s : jsstring) (c : N) (rest : jsstring) :
  trimStart s = c :: rest -> isTrimmed c = false.
Proof.
  induction s as [|a s IH]; simpl; [done|].
  destruct (isTrimmed a) eqn:Ha; [done|]. by intros [= <- _].
Qed.

Lemma trimStart_whitespace (s : jsstring) :
  forallb isTrimmed s = true -> trimStart s = [].
Proof.
  induction s as [|c s IH]; simpl; [done|].
  intros [Hc Hs]%andb_prop. rewrite Hc. auto.
Qed.

Lemma trimEnd_decompose (s : jsstring) :
  exists post, s = trimEnd s ++ post /\ forallb isTrimmed post = true.
Proof.
  destruct (trimStart_decompose (rev s)) as [pre [Hs Hpre]].
  exists (rev pre). split.
  - unfold trimEnd. rewrite <- rev_app_distr, <- Hs. by rewrite rev_involutive.
  - rewrite forallb_forall in *. intros x Hx. apply Hpre. by apply in_rev.
Qed.

(** [trim] removes a run of white space at each end and nothing else. *)
Lemma trim_decompose (s : jsstring) :
  exists pre post,
    s = pre ++ trim s ++ post
    /\ forallb isTrimmed pre = true /\ forallb isTrimmed post = true.
Proof.
  destruct (trimStart_decompose s) as [pre [Hs Hpre]].
  destruct (trimEnd_decompose (trimStart s)) as [post [Ht Hpost]].
  exists pre, post. unfold trim. by rewrite <- Ht.
Qed.

(** The trimmed string starts with no white space. *)
Lemma trim_head (s : jsstring) (c : N) (rest : jsstring) :
  trim s = c :: rest -> isTrimmed c = false.
Proof.
  unfold trim. intros H.
  destruct (trimEnd_decompose (trimStart s)) as [post [Ht _]].
  rewrite H in Ht. simpl in Ht. by apply trimStart_head in Ht.
Qed.

(** The trimmed string ends with no white space. *)
Lemma trim_last (s : jsstring) (c : N) (front : jsstring) :
  trim s = front ++ [c] -> isTrimmed c = false.
Proof.
  unfold trim, trimEnd. intros H.
  apply (f_equal (@rev N)) in H. rewrite rev_involutive, rev_app_distr in H.
  simpl in H. by apply trimStart_head in H.
Qed.

Lemma trim_whitespace (s : jsstring) :
  forallb isTrimmed s = true -> trim s = [].
Proof.
  intros H. unfold trim. by rewrite (trimStart_whitespace s H).
Qed.

Lemma truthy_false (s : jsstring) : truthy s = false <-> s = [].
Proof. by destruct s. Qed.

(** ** [addTask] *)

(** C2.  [addTask] trims the input.  When nothing is left the state is
    returned as it is.  Otherwise the list grows by exactly one task, put
    in front of the tasks that were there: its title is the trimmed input,
    it is not completed and its id is the decimal rendering of the clock
    reading taken at the call. *)
Theorem addTask_spec (now : Z) (st : AppState) :
  (trim (inputValue st) = [] -> addTask now st = st)
  /\ (trim (inputValue st) <> [] ->
      tasks (addTask now st)
      = {| id := Number_toString now;
           title := trim (inputValue st);
           completed := false |} :: tasks st
      /\ totalCount (addTask now st) = totalCount st + 1
      /\ filter (addTask now st) = filter st).
Proof.
  unfold addTask. split; intros H.
  - by rewrite H.
  - destruct (trim (inputValue st)) as [|c rest] eqn:Ht; [done|].
    simpl. unfold totalCount. simpl. repeat split. lia.
Qed.

Lemma addTask_spec_witness :
  trim (js "  Buy milk ") <> []
  /\ tasks (addTask 1700000000000 (setInputValue (js "  Buy milk ") initialState))
     = [{| id := js "1700000000000"; title := js "Buy milk"; completed := false |}].
Proof.
  split; [discriminate|].
  apply (proj2 (addTask_spec 1700000000000
                  (setInputValue (js "  Buy milk ") initialState))).
  discriminate.
Defined.

(** The input the user typed is handed to [addTask] through the state. *)
Lemma addTask_rawTitle (rawTitle : jsstring) (now : Z) (st : AppState) :
  (trim rawTitle = [] ->
   tasks (addTask now (setInputValue rawTitle st)) = tasks st)
  /\ (trim rawTitle <> [] ->
      tasks (addTask now (setInputValue rawTitle st))
      = {| id := Number_toString now; title := trim rawTitle; completed := false |}
          :: tasks st).
Proof.
  unfold addTask. simpl. split; intros H.
  - by rewrite H.
  - by destruct (trim rawTitle).
Qed.

Example addTask_empty : addTask 5 (setInputValue [] initialState) = initialState.
Proof. reflexivity. Qed.

Example addTask_blank :
  tasks (addTask 5 (setInputValue (js "   ") initialState)) = [].
Proof. reflexivity. Qed.

(** ** [toggleTask] *)

Lemma toggleTask_lookup (id0 : jsstring) (st : AppState) (i : nat) (task : TodoItem) :
  tasks st !! i = Some task ->
  tasks (toggleTask id0 st) !! i
  = Some (if bool_decide (id task = id0)
          then {| id := id task; title := title task;
                  completed := negb (completed task) |}
          else task).
Proof.
  unfold toggleTask. simpl. intros H.
  rewrite lookup_map, H. done.
Qed.

Lemma toggleTask_involutive (id0 : jsstring) (st : AppState) :
  toggleTask id0 (toggleTask id0 st) = st.
Proof.
  destruct st as [l v f]. unfold toggleTask, setTasks. simpl. f_equal.
  rewrite map_map. rewrite <- (map_id l) at 2. apply map_ext.
  intros [i t c]. simpl. destruct (decide (i = id0)) as [H|H].
  - rewrite (bool_decide_true (i = id0)) by done. simpl.
    rewrite (bool_decide_true (i = id0)) by done. by rewrite negb_involutive.
  - rewrite (bool_decide_false (i = id0)) by done. simpl.
    by rewrite (bool_decide_false (i = id0)).
Qed.

Lemma toggleTask_unknown (id0 : jsstring) (st : AppState) :
  id0 ∉ map id (tasks st) -> toggleTask id0 st = st.
Proof.
  destruct st as [l v f]. unfold toggleTask, setTasks. simpl. intros Hid. f_equal.
  rewrite <- (map_id l) at 2. apply map_ext_in.
  intros t Ht. case_bool_decide as H; [|done].
  exfalso. apply Hid. rewrite <- H. apply list_elem_of_In. by apply in_map.
Qed.

Lemma toggleTask_ids (id0 : jsstring) (st : AppState) :
  map id (tasks (toggleTask id0 st)) = map id (tasks st).
Proof.
  unfold toggleTask; simpl. rewrite map_map. apply map_ext.
  intros t. by case_bool_decide.
Qed.

(** Two positions of a list with pairwise distinct ids hold different ids. *)
Lemma NoDup_ids_lookup (l : list TodoItem) (i j : nat) (t u : TodoItem) :
  NoDup (map id l) -> l !! i = Some t -> l !! j = Some u -> id t = id u -> i = j.
Proof.
  intros Hnd Hi Hj Heq.
  apply (NoDup_lookup (map id l) i j (id t)); [done| |].
  - by rewrite lookup_map, Hi.
  - rewrite lookup_map, Hj. simpl. by rewrite Heq.
Qed.

(** C3, as the handler behaves.  [toggleTask id0] flips the [completed]
    flag of exactly the tasks whose id is [id0] and keeps every id, every
    title and the order; in a list with pairwise distinct ids that is the
    one task [t] with [id t = id0] and no other position changes.  Toggling
    twice gives the state back, and an id no task has changes nothing. *)
Theorem toggleTask_spec (id0 : jsstring) (st : AppState) :
  (forall i task, tasks st !! i = Some task ->
     tasks (toggleTask id0 st) !! i
     = Some (if bool_decide (id task = id0)
             then {| id := id task; title := title task;
                     completed := negb (completed task) |}
             else task))
  /\ length (tasks (toggleTask id0 st)) = length (tasks st)
  /\ map id (tasks (toggleTask id0 st)) = map id (tasks st)
  /\ map title (tasks (toggleTask id0 st)) = map title (tasks st)
  /\ inputValue (toggleTask id0 st) = inputValue st
  /\ filter (toggleTask id0 st) = filter st
  /\ (NoDup (map id (tasks st)) ->
      forall i t, tasks st !! i = Some t -> id t = id0 ->
        tasks (toggleTask id0 st) !! i
        = Some {| id := id t; title := title t; completed := negb (completed t) |}
        /\ forall j, j <> i -> tasks (toggleTask id0 st) !! j = tasks st !! j)
  /\ toggleTask id0 (toggleTask id0 st) = st
  /\ (id0 ∉ map id (tasks st) -> toggleTask id0 st = st).
Proof.
  split; [apply toggleTask_lookup|].
  split; [unfold toggleTask; simpl; apply length_map|].
  split; [apply toggleTask_ids|].
  split.
  { unfold toggleTask; simpl. rewrite map_map. apply map_ext.
    intros t. by case_bool_decide. }
  split; [done|]. split; [done|].
  split; [|split; [apply toggleTask_involutive | apply toggleTask_unknown]].
  intros Hnd i t Hi Hid. split.
  - rewrite (toggleTask_lookup id0 st i t Hi). by rewrite bool_decide_true.
  - intros j Hj. destruct (tasks st !! j) as [u|] eqn:Hu.
    + rewrite (toggleTask_lookup id0 st j u Hu).
      case_bool_decide as Heq; [|done].
      exfalso. apply Hj. apply (NoDup_ids_lookup (tasks st) j i u t); congruence.
    + apply lookup_ge_None in Hu. apply lookup_ge_None.
      unfold toggleTask. simpl. by rewrite length_map.
Qed.

Lemma toggleTask_spec_witness :
  NoDup (map id [{| id := js "2"; title := js "Write report"; completed := false |};
                 {| id := js "1"; title := js "Buy milk"; completed := false |}])
  /\ tasks (toggleTask (js "1")
       {| tasks := [{| id := js "2"; title := js "Write report"; completed := false |};
                    {| id := js "1"; title := js "Buy milk"; completed := false |}];
          inputValue := []; filter := All |}) !! 0%nat
     = Some {| id := js "2"; title := js "Write report"; completed := false |}.
Proof.
  assert (Hnd : NoDup (map id
     [{| id := js "2"; title := js "Write report"; completed := false |};
      {| id := js "1"; title := js "Buy milk"; completed := false |}])).
  { apply (bool_decide_unpack _). vm_compute. exact I. }
  split; [exact Hnd|].
  pose proof (toggleTask_spec (js "1")
    {| tasks := [{| id := js "2"; title := js "Write report"; completed := false |};
                 {| id := js "1"; title := js "Buy milk"; completed := false |}];
       inputValue := []; filter := All |}) as H.
  destruct H as (_ & _ & _ & _ & _ & _ & H & _).
  destruct (H Hnd 1%nat _ eq_refl eq_refl) as [_ Hother].
  apply (Hother 0%nat). lia.
Defined.

(** C3 as stated fails where two tasks share an id, as after two
    submissions within one millisecond: toggling by that id flips both
    tasks, not only the one that was pressed. *)
Lemma toggleTask_flips_same_id :
  run twoAtOnce initialState = Rendered collided
  /\ tasks collided
     = [{| id := js "1700000000000"; title := js "Write report"; completed := false |};
        {| id := js "1700000000000"; title := js "Buy milk"; completed := false |}]
  /\ tasks (toggleTask (js "1700000000000") collided)
     = [{| id := js "1700000000000"; title := js "Write report"; completed := true |};
        {| id := js "1700000000000"; title := js "Buy milk"; completed := true |}].
Proof. repeat split. Qed.

(** ** [deleteTask] *)

Lemma deleteTask_elem (id0 : jsstring) (st : AppState) (t : TodoItem) :
  t ∈ tasks (deleteTask id0 st) <-> t ∈ tasks st /\ id t <> id0.
Proof.
  unfold deleteTask. simpl. rewrite !list_elem_of_In, filter_In.
  rewrite negb_true_iff, bool_decide_eq_false. done.
Qed.

Lemma deleteTask_length (id0 : jsstring) (st : AppState) :
  (length (tasks (deleteTask id0 st))
   + length (List.filter (fun task => bool_decide (id task = id0)) (tasks st))
   = length (tasks st))%nat.
Proof.
  unfold deleteTask. simpl.
  pose proof (filter_split_length (fun task => bool_decide (id task = id0)) (tasks st)).
  lia.
Qed.

Lemma deleteTask_unknown (id0 : jsstring) (st : AppState) :
  id0 ∉ map id (tasks st) -> deleteTask id0 st = st.
Proof.
  destruct st as [l v f]. unfold deleteTask, setTasks. simpl. intros Hid. f_equal.
  apply filter_all. intros t Ht. rewrite negb_true_iff, bool_decide_eq_false.
  intros <-. apply Hid. apply list_elem_of_In. by apply in_map.
Qed.

(** C4, as the handler behaves.  [deleteTask id0] removes every task whose
    id is [id0] and no other: the tasks that stay are those with another
    id, in their order, and the length drops by the number of tasks with
    that id.  In a list with pairwise distinct ids that number is 0 or 1.
    When no task has the id, the state is returned as it is. *)
Theorem deleteTask_spec (id0 : jsstring) (st : AppState) :
  tasks (deleteTask id0 st) `sublist_of` tasks st
  /\ (forall t, t ∈ tasks (deleteTask id0 st) <-> t ∈ tasks st /\ id t <> id0)
  /\ (length (tasks (deleteTask id0 st))
      + length (List.filter (fun task => bool_decide (id task = id0)) (tasks st))
      = length (tasks st))%nat
  /\ inputValue (deleteTask id0 st) = inputValue st
  /\ filter (deleteTask id0 st) = filter st
  /\ (NoDup (map id (tasks st)) ->
      length (tasks (deleteTask id0 st)) = length (tasks st)
      \/ S (length (tasks (deleteTask id0 st))) = length (tasks st))
  /\ (id0 ∉ map id (tasks st) -> deleteTask id0 st = st).
Proof.
  split; [apply filter_sublist|].
  split; [apply deleteTask_elem|].
  split; [apply deleteTask_length|].
  split; [done|]. split; [done|].
  split; [|apply deleteTask_unknown].
  intros Hnd.
  pose proof (deleteTask_length id0 st).
  pose proof (filter_key_NoDup id id0 (tasks st) Hnd).
  lia.
Qed.

Lemma deleteTask_spec_witness :
  NoDup (map id [{| id := js "2"; title := js "Write report"; completed := false |};
                 {| id := js "1"; title := js "Buy milk"; completed := true |}])
  /\ (length (tasks (deleteTask (js "1")
        {| tasks := [{| id := js "2"; title := js "Write report"; completed := false |};
                     {| id := js "1"; title := js "Buy milk"; completed := true |}];
           inputValue := []; filter := All |}))
      = 2%nat
      \/ S (length (tasks (deleteTask (js "1")
        {| tasks := [{| id := js "2"; title := js "Write report"; completed := false |};
                     {| id := js "1"; title := js "Buy milk"; completed := true |}];
           inputValue := []; filter := All |})))
         = 2%nat).
Proof.
  assert (Hnd : NoDup (map id
     [{| id := js "2"; title := js "Write report"; completed := false |};
      {| id := js "1"; title := js "Buy milk"; completed := true |}])).
  { apply (bool_decide_unpack _). vm_compute. exact I. }
  split; [exact Hnd|].
  pose proof (deleteTask_spec (js "1")
    {| tasks := [{| id := js "2"; title := js "Write report"; completed := false |};
                 {| id := js "1"; title := js "Buy milk"; completed := true |}];
       inputValue := []; filter := All |}) as H.
  destruct H as (_ & _ & _ & _ & _ & H & _).
  exact (H Hnd).
Defined.

(** C4 as stated fails where two tasks share an id, as after two
    submissions within one millisecond: one [deleteTask] removes both and
    the length drops by two. *)
Lemma deleteTask_removes_same_id :
  run twoAtOnce initialState = Rendered collided
  /\ length (tasks collided) = 2%nat
  /\ tasks (deleteTask (js "1700000000000") collided) = [].
Proof. repeat split. Qed.

(** ** [clearCompleted] *)

(** C5.  After [clearCompleted] no task is completed; the tasks that stay
    are the ones that were not completed, each as it was and in the order
    they had; when no task is completed the state is returned as it is. *)
Theorem clearCompleted_spec (st : AppState) :
  Forall (fun task => completed task = false) (tasks (clearCompleted st))
  /\ tasks (clearCompleted st) `sublist_of` tasks st
  /\ (forall t, t ∈ tasks (clearCompleted st) <-> t ∈ tasks st /\ completed t = false)
  /\ (length (tasks (clearCompleted st)) = Z.to_nat (activeCount st))
  /\ inputValue (clearCompleted st) = inputValue st
  /\ filter (clearCompleted st) = filter st
  /\ (Forall (fun task => completed task = false) (tasks st) -> clearCompleted st = st).
Proof.
  assert (Helem : forall t,
    t ∈ tasks (clearCompleted st) <-> t ∈ tasks st /\ completed t = false).
  { intros t. unfold clearCompleted. simpl.
    by rewrite !list_elem_of_In, filter_In, negb_true_iff. }
  split.
  { apply Forall_forall. intros t Ht. by apply Helem in Ht as [_ Ht]. }
  split; [apply filter_sublist|].
  split; [exact Helem|].
  split.
  { unfold activeCount, totalCount, completedCount, clearCompleted. simpl.
    pose proof (filter_split_length (fun task => completed task) (tasks st)) as H.
    cbv beta in H. lia. }
  split; [done|]. split; [done|].
  intros Hall. destruct st as [l v f]. unfold clearCompleted, setTasks. simpl in *.
  f_equal. apply filter_all. intros t Ht. rewrite negb_true_iff.
  rewrite Forall_forall in Hall. apply Hall. by apply list_elem_of_In.
Qed.

Lemma clearCompleted_spec_witness :
  Forall (fun task => completed task = false) (tasks collided)
  /\ clearCompleted collided = collided.
Proof.
  assert (H : Forall (fun task => completed task = false) (tasks collided)).
  { repeat constructor. }
  split; [exact H|].
  exact (proj2 (proj2 (proj2 (proj2 (proj2 (proj2 (clearCompleted_spec collided))))))
           H).
Defined.

(** ** [filteredTasks] and [setFilter] *)

(** C10.  Whatever the filter, the tasks shown are a subsequence of the
    stored list, in the order of the stored list; under [All] they are the
    stored list itself. *)
Theorem filteredTasks_sublist (st : AppState) :
  filteredTasks st `sublist_of` tasks st
  /\ (filter st = All -> filteredTasks st = tasks st).
Proof.
  unfold filteredTasks. split.
  - destruct (filter st); [done | apply filter_sublist | apply filter_sublist].
  - by intros ->.
Qed.

Lemma filteredTasks_sublist_witness :
  filter collided = All /\ filteredTasks collided = tasks collided.
Proof.
  split; [reflexivity|].
  exact (proj2 (filteredTasks_sublist collided) eq_refl).
Defined.

(** ** The derived counts and the completion rate *)

Lemma completedCount_le (st : AppState) : 0 <= completedCount st <= totalCount st.
Proof.
  unfold completedCount, totalCount.
  pose proof (filter_length_le (fun task => completed task) (tasks st)). lia.
Qed.

(** The three counts: active and completed tasks add up to the total. *)
Lemma stats_sum (st : AppState) :
  activeCount st + completedCount st = totalCount st
  /\ 0 <= activeCount st /\ 0 <= completedCount st.
Proof.
  pose proof (completedCount_le st). unfold activeCount. lia.
Qed.

Lemma completionRate_rateOf (st : AppState) :
  completionRate st = rateOf (completedCount st) (totalCount st).
Proof. reflexivity. Qed.

(** No task, no progress: the rate of the empty list is 0. *)
Lemma completionRate_empty (st : AppState) :
  totalCount st = 0 -> completionRate st = Number_of_Z 0.
Proof. unfold completionRate. by intros ->. Qed.

Lemma spec_float_eqb_eq (x y : spec_float) : spec_float_eqb x y = true -> x = y.
Proof.
  destruct x as [s|s| |s m e], y as [s'|s'| |s' m' e']; simpl; try done.
  - by intros ->%eqb_prop.
  - by intros ->%eqb_prop.
  - intros [[->%eqb_prop ->%Pos.eqb_eq]%andb_prop ->%Z.eqb_eq]%andb_prop. done.
Qed.

Lemma ratesAgreeBelow_sound (n c t : nat) :
  ratesAgreeBelow n = true -> (t < n)%nat -> (c <= t)%nat ->
  rateOf (Z.of_nat c) (Z.of_nat t)
  = Number_of_Z (if Z.of_nat t =? 0 then 0
                 else roundHalfUp (100 * Z.of_nat c) (Z.of_nat t)).
Proof.
  unfold ratesAgreeBelow. intros H Ht Hc.
  rewrite forallb_forall in H.
  assert (Hin : In t (seq 0 n)) by (apply in_seq; lia).
  specialize (H t Hin). rewrite forallb_forall in H.
  apply spec_float_eqb_eq, H. apply in_seq. lia.
Qed.

Lemma ratesAgreeBelow_40 : ratesAgreeBelow 40 = true.
Proof. vm_compute. reflexivity. Qed.

(** On every list of fewer than forty tasks the component shows the rate
    the specification asks for. *)
Lemma completionRate_below_40 (st : AppState) :
  (length (tasks st) < 40)%nat ->
  completionRate st = Number_of_Z (spec_completionRate st).
Proof.
  intros Hlen. rewrite completionRate_rateOf. unfold spec_completionRate.
  pose proof (completedCount_le st) as Hc. unfold totalCount in *.
  rewrite <- (Z2Nat.id (completedCount st)) by lia.
  apply (ratesAgreeBelow_sound 40); [apply ratesAgreeBelow_40 | lia | lia].
Qed.

(** C6 at forty tasks of which twenty-three are completed: 57.5 per cent
    is shown as 57, where rounding asks for 58.  The quotient 23/40 is not
    a binary fraction; rounded to a double and multiplied by 100 it gives
    57.49999999999999, which [Math.round] takes down. *)
Theorem completionRate_23_of_40 :
  totalCount fortyTasks = 40
  /\ completedCount fortyTasks = 23
  /\ activeCount fortyTasks = 17
  /\ completionRate fortyTasks = Number_of_Z 57
  /\ spec_completionRate fortyTasks = 58.
Proof. vm_compute. repeat split. Qed.

(** ** Ids *)

Lemma js_inj (s s' : string) : js s = js s' -> s = s'.
Proof.
  unfold js. intros H.
  rewrite <- (string_of_list_ascii_of_string s), <- (string_of_list_ascii_of_string s').
  f_equal. revert H.
  generalize (list_ascii_of_string s) (list_ascii_of_string s').
  induction l as [|a l IH]; intros [|b l']; simpl; try done.
  intros [= Hab Hl]. f_equal; [|by apply IH].
  by rewrite <- (ascii_N_embedding a), <- (ascii_N_embedding b), Hab.
Qed.

Lemma to_int_parses (n : Z) :
  NilZero.int_of_string (NilZero.string_of_int (Z.to_int n)) = Some (Z.to_int n).
Proof.
  apply NilZero.isi; destruct n as [|p|p]; simpl; try done.
  - intros [= H]. by apply DecimalPos.Unsigned.to_uint_nonnil in H.
  - intros [= H]. by apply DecimalPos.Unsigned.to_uint_nonnil in H.
Qed.

(** Different clock readings are rendered as different ids. *)
Lemma Number_toString_inj (n m : Z) : Number_toString n = Number_toString m -> n = m.
Proof.
  unfold Number_toString. intros H%js_inj.
  apply DecimalZ.to_int_inj.
  pose proof (to_int_parses n) as Hn. rewrite H, to_int_parses in Hn. congruence.
Qed.

Lemma filter_ids_sublist (f : TodoItem -> bool) (l : list TodoItem) :
  map id (List.filter f l) `sublist_of` map id l.
Proof. apply (fmap_sublist id), filter_sublist. Qed.

Lemma deleteTask_ids (id0 : jsstring) (st : AppState) :
  map id (tasks (deleteTask id0 st)) `sublist_of` map id (tasks st).
Proof. apply filter_ids_sublist. Qed.

Lemma clearCompleted_ids (st : AppState) :
  map id (tasks (clearCompleted st)) `sublist_of` map id (tasks st).
Proof. apply filter_ids_sublist. Qed.

Lemma addTask_ids (rawTitle : jsstring) (now : Z) (st : AppState) :
  map id (tasks (addTask now (setInputValue rawTitle st)))
  = if truthy (trim rawTitle) then Number_toString now :: map id (tasks st)
    else map id (tasks st).
Proof. unfold addTask. simpl. by destruct (trim rawTitle). Qed.

(** One operation keeps the ids pairwise distinct when it brings in no id twice. *)
Lemma step_unique_ids (o : op) (st st' : AppState) :
  NoDup (map id (tasks st)) ->
  freshIds [o] st ->
  step o st = Rendered st' ->
  NoDup (map id (tasks st')).
Proof.
  intros Hnd [Hfresh _] Hstep. destruct o as [storage|rawTitle now|id0|id0|]; simpl in *.
  - by apply Hfresh.
  - injection Hstep as <-. rewrite addTask_ids.
    destruct (trim rawTitle) eqn:Ht; simpl; [done|].
    apply NoDup_cons. split; [by apply Hfresh | done].
  - injection Hstep as <-. by rewrite toggleTask_ids.
  - injection Hstep as <-. eapply sublist_NoDup; [exact Hnd | apply deleteTask_ids].
  - injection Hstep as <-. eapply sublist_NoDup; [exact Hnd | apply clearCompleted_ids].
Qed.

Lemma run_unique_ids (ops : list op) (st st' : AppState) :
  NoDup (map id (tasks st)) ->
  freshIds ops st ->
  run ops st = Rendered st' ->
  NoDup (map id (tasks st')).
Proof.
  revert st. induction ops as [|o ops IH]; intros st Hnd Hfresh Hrun; simpl in *.
  - by injection Hrun as <-.
  - destruct Hfresh as [Ho Hrest].
    destruct (step o st) as [st1|v] eqn:Hstep; [|done].
    apply (IH st1); [|by apply Hrest|done].
    apply (step_unique_ids o st st1); [done| |done].
    simpl. split; [done|]. by intros.
Qed.

(** Without hydration every id of the list was either there at the start
    or is the rendering of a clock reading of the sequence. *)
Lemma run_ids_origin (ops : list op) (st st' : AppState) (i : jsstring) :
  existsb isHydrate ops = false ->
  run ops st = Rendered st' ->
  i ∈ map id (tasks st') ->
  i ∈ map id (tasks st) \/ exists now, now ∈ clocks ops /\ i = Number_toString now.
Proof.
  revert st. induction ops as [|o ops IH]; intros st Hh Hrun Hi; simpl in *.
  - injection Hrun as <-. by left.
  - apply orb_false_elim in Hh as [Ho Hh].
    destruct o as [storage|rawTitle now|id0|id0|]; simpl in *; [done|..].
    + destruct (IH _ Hh Hrun Hi) as [Hin|[n [Hn ->]]].
      * rewrite addTask_ids in Hin. destruct (truthy (trim rawTitle)); [|by left].
        apply elem_of_cons in Hin as [->|Hin]; [|by left].
        right. exists now. split; [left|done].
      * right. exists n. split; [by right|done].
    + destruct (IH _ Hh Hrun Hi) as [Hin|Hin]; [|by right].
      left. by rewrite toggleTask_ids in Hin.
    + destruct (IH _ Hh Hrun Hi) as [Hin|Hin]; [|by right].
      left. eapply elem_of_sublist; [exact Hin | apply deleteTask_ids].
    + destruct (IH _ Hh Hrun Hi) as [Hin|Hin]; [|by right].
      left. eapply elem_of_sublist; [exact Hin | apply clearCompleted_ids].
Qed.

Lemma run_distinct_clocks (ops : list op) (st st' : AppState) :
  existsb isHydrate ops = false ->
  NoDup (clocks ops) ->
  NoDup (map id (tasks st)) ->
  (forall now, now ∈ clocks ops -> Number_toString now ∉ map id (tasks st)) ->
  run ops st = Rendered st' ->
  NoDup (map id (tasks st')).
Proof.
  revert st. induction ops as [|o ops IH]; intros st Hh Hclk Hnd Hnew Hrun; simpl in *.
  - by injection Hrun as <-.
  - apply orb_false_elim in Hh as [Ho Hh].
    destruct o as [storage|rawTitle now|id0|id0|]; simpl in *; [done|..].
    + apply NoDup_cons in Hclk as [Hnow Hclk].
      apply (IH _ Hh Hclk) in Hrun; [done| |]; rewrite addTask_ids.
      * destruct (truthy (trim rawTitle)); [|done].
        apply NoDup_cons. split; [|done]. apply Hnew. left.
      * intros n Hn. destruct (truthy (trim rawTitle)).
        -- intros [Heq|Hin]%elem_of_cons.
           ++ apply Number_toString_inj in Heq. by subst.
           ++ apply (Hnew n); [by right|done].
        -- apply Hnew. by right.
    + apply (IH _ Hh Hclk) in Hrun; [done| |]; by rewrite toggleTask_ids.
    + apply (IH _ Hh Hclk) in Hrun; [done| |].
      * eapply sublist_NoDup; [exact Hnd | apply deleteTask_ids].
      * intros n Hn Hin. apply (Hnew n Hn).
        eapply elem_of_sublist; [exact Hin | apply deleteTask_ids].
    + apply (IH _ Hh Hclk) in Hrun; [done| |].
      * eapply sublist_NoDup; [exact Hnd | apply clearCompleted_ids].
      * intros n Hn Hin. apply (Hnew n Hn).
        eapply elem_of_sublist; [exact Hin | apply clearCompleted_ids].
Qed.

(** C1, as the component behaves.  Starting from the empty list, the ids
    stay pairwise distinct along every sequence of operations in which each
    added task gets an id no task of the list carries at that moment and
    each hydration installs a list with pairwise distinct ids.  Without
    hydration it is enough that the tasks are added at pairwise distinct
    clock readings, because the rendering of a clock reading as an id is
    injective. *)
Theorem unique_ids :
  (forall ops st,
     freshIds ops initialState ->
     run ops initialState = Rendered st ->
     NoDup (map id (tasks st)))
  /\ (forall ops st,
        existsb isHydrate ops = false ->
        NoDup (clocks ops) ->
        run ops initialState = Rendered st ->
        NoDup (map id (tasks st)))
  /\ (forall n m, Number_toString n = Number_toString m -> n = m).
Proof.
  split; [|split].
  - intros ops st. apply run_unique_ids. constructor.
  - intros ops st Hh Hclk. apply run_distinct_clocks; try done.
    + constructor.
    + intros now _. simpl. apply not_elem_of_nil.
  - apply Number_toString_inj.
Qed.

Lemma unique_ids_witness :
  existsb isHydrate
    [AddTask (js "Buy milk") 1700000000000;
     AddTask (js "Write report") 1700000000001;
     ToggleTask (js "1700000000000")] = false
  /\ NoDup (clocks
       [AddTask (js "Buy milk") 1700000000000;
        AddTask (js "Write report") 1700000000001;
        ToggleTask (js "1700000000000")])
  /\ NoDup (map id
       [{| id := js "1700000000001"; title := js "Write report"; completed := false |};
        {| id := js "1700000000000"; title := js "Buy milk"; completed := true |}]).
Proof.
  assert (Hclk : NoDup (clocks
       [AddTask (js "Buy milk") 1700000000000;
        AddTask (js "Write report") 1700000000001;
        ToggleTask (js "1700000000000")])).
  { apply (bool_decide_unpack _). vm_compute. exact I. }
  split; [reflexivity|]. split; [exact Hclk|].
  apply (proj1 (proj2 unique_ids)
           [AddTask (js "Buy milk") 1700000000000;
            AddTask (js "Write report") 1700000000001;
            ToggleTask (js "1700000000000")]
           {| tasks :=
                [{| id := js "1700000000001"; title := js "Write report";
                    completed := false |};
                 {| id := js "1700000000000"; title := js "Buy milk";
                    completed := true |}];
              inputValue := []; filter := All |}
           eq_refl Hclk).
  reflexivity.
Defined.

(** C1 as stated fails: two tasks added at the same clock reading carry the same id. *)
Lemma ids_collide :
  run twoAtOnce initialState = Rendered collided
  /\ ~ NoDup (map id (tasks collided)).
Proof.
  split; [reflexivity|].
  intros [H _]%NoDup_cons. apply H. left.
Qed.

(** ** [JSON.parse] after [JSON.stringify] *)

Lemma parseChars_plain (c : N) (tail : jsstring) :
  c <> quotationMark -> c <> reverseSolidus -> (0x20 <= c)%N ->
  parseChars (c :: tail) = consChar c (parseChars tail).
Proof.
  intros Hq Hr Hc. cbn [parseChars].
  rewrite (proj2 (N.eqb_neq _ _) Hq), (proj2 (N.eqb_neq _ _) Hr).
  by rewrite (proj2 (N.ltb_ge _ _) Hc).
Qed.

Lemma parseChars_escape (e u : N) (tail : jsstring) :
  e <> ch "u" -> unescape e = Some u ->
  parseChars (reverseSolidus :: e :: tail) = consChar u (parseChars tail).
Proof.
  intros He Hu. cbn [parseChars]. change (reverseSolidus =? quotationMark)%N with false.
  change (reverseSolidus =? reverseSolidus)%N with true. cbv iota.
  by rewrite (proj2 (N.eqb_neq _ _) He), Hu.
Qed.

Lemma parseChars_unicode (h1 h2 h3 h4 u : N) (tail : jsstring) :
  hex4Value h1 h2 h3 h4 = Some u ->
  parseChars (reverseSolidus :: ch "u" :: h1 :: h2 :: h3 :: h4 :: tail)
  = consChar u (parseChars tail).
Proof.
  intros Hu. cbn [parseChars]. change (reverseSolidus =? quotationMark)%N with false.
  change (reverseSolidus =? reverseSolidus)%N with true.
  change (ch "u" =? ch "u")%N with true. cbv iota.
  by rewrite Hu.
Qed.

Lemma hexValue_hexDigit (d : N) : (d < 16)%N -> hexValue (hexDigit d) = Some d.
Proof.
  intros Hd.
  assert (Hcases : In d [0; 1; 2; 3; 4; 5; 6; 7; 8; 9; 10; 11; 12; 13; 14; 15]%N).
  { simpl. lia. }
  simpl in Hcases.
  repeat (destruct Hcases as [<-|Hcases]; [reflexivity|]). done.
Qed.

Lemma hex4Value_UnicodeEscape (c : N) (tail : jsstring) :
  (c < 65536)%N ->
  parseChars (UnicodeEscape c ++ tail) = consChar c (parseChars tail).
Proof.
  intros Hc. unfold UnicodeEscape. cbn [app].
  apply parseChars_unicode. unfold hex4Value.
  rewrite !hexValue_hexDigit by (zify; Z.to_euclidean_division_equations; lia).
  f_equal. zify; Z.to_euclidean_division_equations; lia.
Qed.

Lemma isSurrogate_bound (c : N) :
  ((c <? 0x20) || isLeadingSurrogate c || isTrailingSurrogate c)%N = true ->
  (c < 65536)%N.
Proof.
  unfold isLeadingSurrogate, isTrailingSurrogate.
  rewrite !orb_true_iff, !andb_true_iff, N.ltb_lt, !N.leb_le. lia.
Qed.

Lemma parseChars_quoteCodeUnit (c : N) (tail : jsstring) :
  parseChars (quoteCodeUnit c ++ tail) = consChar c (parseChars tail).
Proof.
  unfold quoteCodeUnit.
  destruct (N.eqb_spec c 0x08) as [->|H1]; [by apply parseChars_escape|].
  destruct (N.eqb_spec c 0x09) as [->|H2]; [by apply parseChars_escape|].
  destruct (N.eqb_spec c 0x0A) as [->|H3]; [by apply parseChars_escape|].
  destruct (N.eqb_spec c 0x0C) as [->|H4]; [by apply parseChars_escape|].
  destruct (N.eqb_spec c 0x0D) as [->|H5]; [by apply parseChars_escape|].
  destruct (N.eqb_spec c quotationMark) as [->|H6]; [by apply parseChars_escape|].
  destruct (N.eqb_spec c reverseSolidus) as [->|H7]; [by apply parseChars_escape|].
  destruct ((c <? 0x20) || isLeadingSurrogate c || isTrailingSurrogate c)%N eqn:Hs.
  - by apply hex4Value_UnicodeEscape, isSurrogate_bound.
  - apply parseChars_plain; [done|done|].
    apply orb_false_elim in Hs as [Hs _]. apply orb_false_elim in Hs as [Hs _].
    by apply N.ltb_ge.
Qed.

Lemma parseChars_pair (c d : N) (tail : jsstring) :
  isLeadingSurrogate c = true -> isTrailingSurrogate d = true ->
  parseChars (c :: d :: tail) = consChar c (consChar d (parseChars tail)).
Proof.
  unfold isLeadingSurrogate, isTrailingSurrogate.
  rewrite !andb_true_iff, !N.leb_le. intros Hc Hd.
  assert (Hq : quotationMark = 34%N) by reflexivity.
  assert (Hr : reverseSolidus = 92%N) by reflexivity.
  rewrite parseChars_plain by lia. f_equal. apply parseChars_plain; lia.
Qed.

(** The characters [QuoteJSONString] writes between the quotation marks
    are read back as the string they were written from. *)
Lemma parseChars_quoteChars (s rest : jsstring) :
  parseChars (quoteChars s ++ quotationMark :: rest) = Some (s, rest).
Proof.
  assert (H : forall n s, (length s <= n)%nat ->
            parseChars (quoteChars s ++ quotationMark :: rest) = Some (s, rest)).
  { clear s. induction n as [|n IH]; intros [|c s] Hlen; simpl in Hlen;
      try reflexivity; try lia.
    cbn [quoteChars].
    destruct (isLeadingSurrogate c) eqn:Hc.
    - destruct s as [|d s].
      + rewrite hex4Value_UnicodeEscape; [reflexivity|].
        apply isSurrogate_bound. by rewrite Hc, orb_true_r.
      + destruct (isTrailingSurrogate d) eqn:Hd.
        * cbn [app]. rewrite parseChars_pair by done.
          rewrite IH by (simpl in Hlen; lia). reflexivity.
        * rewrite <- app_assoc, hex4Value_UnicodeEscape.
          -- rewrite IH by lia. reflexivity.
          -- apply isSurrogate_bound. by rewrite Hc, orb_true_r.
    - rewrite <- app_assoc, parseChars_quoteCodeUnit, IH by lia. reflexivity. }
  by apply (H (length s)).
Qed.

Lemma parseValue_string (d : nat) (s rest : jsstring) :
  parseValue (S d) (QuoteJSONString s ++ rest) = Some (JString s, rest).
Proof.
  unfold QuoteJSONString. rewrite <- app_comm_cons, <- app_assoc.
  cbn [parseValue skipWS app]. change (isJSONWhiteSpace quotationMark) with false.
  cbv iota. change (quotationMark =? ch "{")%N with false.
  change (quotationMark =? ch "[")%N with false.
  change (quotationMark =? quotationMark)%N with true. cbv iota.
  by rewrite parseChars_quoteChars.
Qed.

Lemma parseValue_bool (d : nat) (b : bool) (rest : jsstring) :
  parseValue (S d) ((if b then js "true" else js "false") ++ rest)
  = Some (JBool b, rest).
Proof. by destruct b. Qed.

Lemma skipWS_cons (c : N) (rest : jsstring) :
  isJSONWhiteSpace c = false -> skipWS (c :: rest) = c :: rest.
Proof. intros H. simpl. by rewrite H. Qed.

Section Members.
Variable pv : jsstring -> option (json * jsstring).

Lemma parseMembers_more (k : nat) (key tail tail' : jsstring) (v : json) :
  pv tail = Some (v, ch "," :: tail') ->
  parseMembers pv (S k) (QuoteJSONString key ++ ch ":" :: tail)
  = match parseMembers pv k tail' with
    | Some (ms, r) => Some ((key, v) :: ms, r)
    | None => None
    end.
Proof.
  intros Hv. unfold QuoteJSONString. rewrite <- app_comm_cons, <- app_assoc.
  cbn [parseMembers app]. rewrite skipWS_cons by done.
  change (quotationMark =? quotationMark)%N with true. cbv iota.
  rewrite parseChars_quoteChars, skipWS_cons by done.
  change (ch ":" =? ch ":")%N with true. cbv iota.
  rewrite Hv, skipWS_cons by done.
  change (ch "," =? ch ",")%N with true. done.
Qed.

Lemma parseMembers_last (k : nat) (key tail rest : jsstring) (v : json) :
  pv tail = Some (v, ch "}" :: rest) ->
  parseMembers pv (S k) (QuoteJSONString key ++ ch ":" :: tail)
  = Some ([(key, v)], rest).
Proof.
  intros Hv. unfold QuoteJSONString. rewrite <- app_comm_cons, <- app_assoc.
  cbn [parseMembers app]. rewrite skipWS_cons by done.
  change (quotationMark =? quotationMark)%N with true. cbv iota.
  rewrite parseChars_quoteChars, skipWS_cons by done.
  change (ch ":" =? ch ":")%N with true. cbv iota.
  rewrite Hv, skipWS_cons by done.
  change (ch "}" =? ch ",")%N with false. change (ch "}" =? ch "}")%N with true.
  done.
Qed.

Lemma parseElements_more (k : nat) (text tail : jsstring) (v : json) :
  pv text = Some (v, ch "," :: tail) ->
  parseElements pv (S k) text
  = match parseElements pv k tail with
    | Some (vs, r) => Some (v :: vs, r)
    | None => None
    end.
Proof.
  intros Hv. cbn [parseElements]. rewrite Hv, skipWS_cons by done.
  change (ch "," =? ch ",")%N with true. done.
Qed.

Lemma parseElements_last (k : nat) (text rest : jsstring) (v : json) :
  pv text = Some (v, ch "]" :: rest) ->
  parseElements pv (S k) text = Some ([v], rest).
Proof.
  intros Hv. cbn [parseElements]. rewrite Hv, skipWS_cons by done.
  change (ch "]" =? ch ",")%N with false. change (ch "]" =? ch "]")%N with true.
  done.
Qed.

End Members.

Lemma parseValue_object (d : nat) (tail : jsstring) :
  parseValue (S d) (ch "{" :: quotationMark :: tail)
  = match parseMembers (parseValue d) (S (length tail)) (quotationMark :: tail) with
    | Some (ms, r) => Some (JObject ms, r)
    | None => None
    end.
Proof. reflexivity. Qed.

Lemma parseValue_array (d : nat) (tail : jsstring) :
  parseValue (S d) (ch "[" :: ch "{" :: tail)
  = match parseElements (parseValue d) (S (length tail)) (ch "{" :: tail) with
    | Some (vs, r) => Some (JArray vs, r)
    | None => None
    end.
Proof. reflexivity. Qed.

Lemma stringifyTodoItem_app (task : TodoItem) (rest : jsstring) :
  stringifyTodoItem task ++ rest
  = ch "{" :: QuoteJSONString (js "id") ++ ch ":" :: QuoteJSONString (id task)
    ++ ch "," :: QuoteJSONString (js "title") ++ ch ":" :: QuoteJSONString (title task)
    ++ ch "," :: QuoteJSONString (js "completed") ++ ch ":"
       :: (if completed task then js "true" else js "false")
    ++ ch "}" :: rest.
Proof.
  unfold stringifyTodoItem.
  repeat (rewrite <- app_comm_cons || rewrite <- app_assoc). reflexivity.
Qed.

Lemma parseMembers_TodoItem (d k : nat) (task : TodoItem) (rest : jsstring) :
  (3 <= k)%nat ->
  parseMembers (parseValue (S d)) k
    (QuoteJSONString (js "id") ++ ch ":" :: QuoteJSONString (id task)
     ++ ch "," :: QuoteJSONString (js "title") ++ ch ":" :: QuoteJSONString (title task)
     ++ ch "," :: QuoteJSONString (js "completed") ++ ch ":"
        :: (if completed task then js "true" else js "false")
     ++ ch "}" :: rest)
  = Some ([(js "id", JString (id task));
           (js "title", JString (title task));
           (js "completed", JBool (completed task))], rest).
Proof.
  intros Hk. destruct k as [|[|[|k]]]; try lia.
  erewrite parseMembers_more by apply parseValue_string.
  erewrite parseMembers_more by apply parseValue_string.
  erewrite parseMembers_last by apply parseValue_bool.
  reflexivity.
Qed.

(** The text of a task is read back as the object it was written from. *)
Lemma parseValue_TodoItem (d : nat) (task : TodoItem) (rest : jsstring) :
  parseValue (S (S d)) (stringifyTodoItem task ++ rest)
  = Some (jsonOfTodoItem task, rest).
Proof.
  rewrite stringifyTodoItem_app.
  match goal with
  | |- parseValue _ (_ :: ?X) = _ =>
      change (match parseMembers (parseValue (S d)) (length X) X with
              | Some (ms, r) => Some (JObject ms, r)
              | None => None
              end = Some (jsonOfTodoItem task, rest))
  end.
  rewrite parseMembers_TodoItem; [reflexivity|].
  rewrite length_app. unfold QuoteJSONString at 1. simpl. lia.
Qed.

Lemma joinItems_length (l : list TodoItem) : (length l <= length (joinItems l))%nat.
Proof.
  induction l as [|task [|task' l] IH]; [simpl; lia|simpl; lia|].
  change (joinItems (task :: task' :: l))
    with (stringifyTodoItem task ++ ch "," :: joinItems (task' :: l)).
  rewrite length_app. simpl in *. lia.
Qed.

Lemma parseElements_joinItems (d k : nat) (task : TodoItem) (l : list TodoItem)
    (rest : jsstring) :
  (length (task :: l) <= k)%nat ->
  parseElements (parseValue (S (S d))) k (joinItems (task :: l) ++ ch "]" :: rest)
  = Some (map jsonOfTodoItem (task :: l), rest).
Proof.
  revert task k. induction l as [|task' l IH]; intros task k Hk;
    (destruct k as [|k]; [simpl in Hk; lia|]).
  - cbn [joinItems]. erewrite parseElements_last by apply parseValue_TodoItem.
    reflexivity.
  - change (joinItems (task :: task' :: l))
      with (stringifyTodoItem task ++ ch "," :: joinItems (task' :: l)).
    rewrite <- app_assoc, <- app_comm_cons.
    erewrite parseElements_more by apply parseValue_TodoItem.
    rewrite IH by (simpl in *; lia). reflexivity.
Qed.

Lemma joinItems_starts (task : TodoItem) (l : list TodoItem) (rest : jsstring) :
  exists tail, joinItems (task :: l) ++ rest = ch "{" :: tail.
Proof. destruct l; eexists; reflexivity. Qed.

(** [JSON.parse] reads the text [JSON.stringify] writes for a task list as
    the array of the objects of its tasks. *)
Lemma JSON_parse_stringify (l : list TodoItem) :
  JSON_parse (JSON_stringify l) = Some (JArray (map jsonOfTodoItem l)).
Proof.
  destruct l as [|task l]; [reflexivity|].
  unfold JSON_parse, JSON_stringify.
  destruct (joinItems_starts task l [ch "]"]) as [tail Htail].
  pose proof (joinItems_length (task :: l)) as Hlen.
  assert (Hk : (length (task :: l) <= S (length tail))%nat).
  { apply (f_equal (@length N)) in Htail. rewrite length_app in Htail.
    simpl in *. lia. }
  rewrite Htail. cbn [length]. rewrite parseValue_array, <- Htail.
  rewrite parseElements_joinItems by done. reflexivity.
Qed.

Lemma asTodoItem_json (task : TodoItem) : asTodoItem (jsonOfTodoItem task) = Some task.
Proof. by destruct task. Qed.

Lemma asTodoItems_json (l : list TodoItem) :
  asTodoItems (JArray (map jsonOfTodoItem l)) = Some l.
Proof.
  simpl. induction l as [|task l IH]; [done|].
  cbn [map asTodoItemList]. by rewrite asTodoItem_json, IH.
Qed.

Lemma deserialize_serialize_list (l : list TodoItem) :
  deserialize (JSON_stringify l) = Some l.
Proof.
  unfold deserialize. rewrite JSON_parse_stringify. apply asTodoItems_json.
Qed.

(** C8.  Reading back what was written gives the list that was written:
    every task with its id, its title and its flag, in the same order; the
    empty list too. *)
Theorem deserialize_serialize (l : list TodoItem) :
  deserialize (JSON_stringify l) = Some l
  /\ deserialize (JSON_stringify []) = Some [].
Proof. split; apply deserialize_serialize_list. Qed.

(** ** Hydration and persistence *)

Lemma JSON_parse_empty : JSON_parse [] = None.
Proof. reflexivity. Qed.

Lemma loadData_rejected (storage : AsyncStorage) (st : AppState) :
  reachable storage = false -> loadData storage st = Rendered st.
Proof. unfold loadData, getItem. by intros ->. Qed.

Lemma loadData_absent (storage : AsyncStorage) (st : AppState) :
  items storage !! STORAGE_KEY = None -> loadData storage st = Rendered st.
Proof. unfold loadData, getItem. intros ->. by destruct (reachable storage). Qed.

Lemma loadData_syntax_error (storage : AsyncStorage) (st : AppState) (blob : jsstring) :
  items storage !! STORAGE_KEY = Some blob ->
  JSON_parse blob = None ->
  loadData storage st = Rendered st.
Proof.
  unfold loadData, getItem. intros -> Hp.
  destruct (reachable storage); [|done].
  destruct (truthy blob); [|done]. by rewrite Hp.
Qed.

Lemma loadData_installs (storage : AsyncStorage) (st : AppState)
    (blob : jsstring) (l : list TodoItem) :
  reachable storage = true ->
  items storage !! STORAGE_KEY = Some blob ->
  deserialize blob = Some l ->
  loadData storage st = Rendered (setTasks (fun _ => l) st).
Proof.
  unfold loadData, getItem, deserialize. intros -> -> Hd.
  destruct blob as [|c blob]; [by rewrite JSON_parse_empty in Hd|].
  cbn [truthy]. destruct (JSON_parse (c :: blob)) as [v|]; [|done].
  by rewrite Hd.
Qed.





(** A stored text that is JSON but no task list is handed to [setTasks] as it is. *)
Example loadData_not_a_list :
  loadData {| reachable := true; items := {[ STORAGE_KEY := js "42" ]} |} initialState
  = IllTyped (JNumber (js "42")).
Proof. vm_compute. reflexivity. Qed.

Example loadData_truncated :
  loadData {| reachable := true;
              items := {[ STORAGE_KEY := (ch "[" :: ch "{" :: QuoteJSONString (js "id")) ]} |}
           initialState
  = Rendered initialState.
Proof. vm_compute. reflexivity. Qed.

Lemma saveData_stored (l : list TodoItem) (storage : AsyncStorage) :
  reachable storage = true ->
  reachable (saveData l storage) = true
  /\ items (saveData l storage) !! STORAGE_KEY = Some (JSON_stringify l).
Proof.
  unfold saveData, setItem. intros ->. simpl. split; [done|].
  apply lookup_insert_eq.
Qed.

Lemma saveData_unreachable (l : list TodoItem) (storage : AsyncStorage) :
  reachable storage = false -> saveData l storage = storage.
Proof. unfold saveData, setItem. by intros ->. Qed.

(** What one run of the app saved is what the next run starts from. *)
Lemma loadData_saveData (l : list TodoItem) (storage : AsyncStorage) (st : AppState) :
  reachable storage = true ->
  loadData (saveData l storage) st = Rendered (setTasks (fun _ => l) st).
Proof.
  intros Hr. destruct (saveData_stored l storage Hr) as [Hr' Hitem].
  apply (loadData_installs _ _ (JSON_stringify l)); [done|done|].
  apply deserialize_serialize_list.
Qed.

Lemma loadData_filter (storage : AsyncStorage) (st st' : AppState) :
  loadData storage st = Rendered st' ->
  filter st' = filter st /\ inputValue st' = inputValue st.
Proof.
  unfold loadData.
  destruct (getItem STORAGE_KEY storage) as [|[blob|]]; try by intros [= <-].
  destruct (truthy blob); [|by intros [= <-]].
  destruct (JSON_parse blob) as [v|]; [|by intros [= <-]].
  destruct (asTodoItems v); [by intros [= <-]|done].
Qed.

(** C9.  The tasks shown are all tasks under [All], exactly the tasks that
    are not completed under [Active], exactly the completed ones under
    [Completed], in the order of the stored list, which is only read.
    [setFilter] changes the filter and nothing else; what is saved is the
    text of the task list alone, so it is the same whatever the filter, and
    a fresh start shows all tasks whatever was stored. *)
Theorem filteredTasks_spec (st : AppState) :
  (filter st = All -> filteredTasks st = tasks st)
  /\ (filter st = Active ->
      Forall (fun task => completed task = false) (filteredTasks st)
      /\ (forall t, t ∈ filteredTasks st <-> t ∈ tasks st /\ completed t = false)
      /\ length (filteredTasks st) = Z.to_nat (activeCount st))
  /\ (filter st = Completed ->
      Forall (fun task => completed task = true) (filteredTasks st)
      /\ (forall t, t ∈ filteredTasks st <-> t ∈ tasks st /\ completed t = true)
      /\ length (filteredTasks st) = Z.to_nat (completedCount st))
  /\ filteredTasks st `sublist_of` tasks st
  /\ (forall f,
        tasks (setFilter f st) = tasks st
        /\ inputValue (setFilter f st) = inputValue st
        /\ filter (setFilter f st) = f)
  /\ (forall f storage,
        saveData (tasks (setFilter f st)) storage = saveData (tasks st) storage)
  /\ (forall storage st',
        loadData storage initialState = Rendered st' -> filter st' = All).
Proof.
  unfold filteredTasks. split; [by intros ->|]. split; [|split].
  - intros ->.
    assert (Helem : forall t,
      t ∈ List.filter (fun task => negb (completed task)) (tasks st)
      <-> t ∈ tasks st /\ completed t = false).
    { intros t. by rewrite !list_elem_of_In, filter_In, negb_true_iff. }
    split; [|split; [exact Helem|]].
    + apply Forall_forall. intros t Ht. by apply Helem in Ht as [_ Ht].
    + unfold activeCount, totalCount, completedCount.
      pose proof (filter_split_length (fun task => completed task) (tasks st)) as H.
      cbv beta in H. lia.
  - intros ->.
    assert (Helem : forall t,
      t ∈ List.filter (fun task => completed task) (tasks st)
      <-> t ∈ tasks st /\ completed t = true).
    { intros t. by rewrite !list_elem_of_In, filter_In. }
    split; [|split; [exact Helem|]].
    + apply Forall_forall. intros t Ht. by apply Helem in Ht as [_ Ht].
    + unfold completedCount. lia.
  - split; [destruct (filter st); [done | apply filter_sublist | apply filter_sublist]|].
    split; [done|]. split; [done|].
    intros storage st' H. by apply loadData_filter in H as [-> _].
Qed.

Lemma filteredTasks_spec_witness :
  filter (setFilter Completed
            (toggleTask (js "1700000000000") collided)) = Completed
  /\ Forall (fun task => completed task = true)
       (filteredTasks (setFilter Completed
                         (toggleTask (js "1700000000000") collided))).
Proof.
  split; [reflexivity|].
  exact (proj1 (proj1 (proj2 (proj2 (filteredTasks_spec
           (setFilter Completed (toggleTask (js "1700000000000") collided)))))
         eq_refl)).
Defined.

(** ** The scenario of the specification *)

Example scenario :
  let st1 := addTask 1700000000000 (setInputValue (js "Buy milk") initialState) in
  let st2 := addTask 1700000000001 (setInputValue (js "Write report") st1) in
  let st3 := toggleTask (js "1700000000000") st2 in
  let st4 := setFilter Completed st3 in
  let st5 := clearCompleted st4 in
  map (fun task => (title task, completed task)) (tasks st2)
  = [(js "Write report", false); (js "Buy milk", false)]
  /\ (totalCount st3, activeCount st3, completedCount st3) = (2, 1, 1)
  /\ completionRate st3 = Number_of_Z 50
  /\ map (fun task => (title task, completed task)) (filteredTasks st4)
     = [(js "Buy milk", true)]
  /\ map (fun task => (title task, completed task)) (tasks st5)
     = [(js "Write report", false)].
Proof. vm_compute. repeat split. Qed.

(** ** The bounds of the parser are never what makes it fail

    [parseValue] is given a nesting bound and [parseElements] and
    [parseMembers] a bound on the number of entries.  Every value read
    takes at least one code unit, so a bound beyond the length of the text
    is as good as any larger one. *)

Lemma skipWS_length (s : jsstring) : (length (skipWS s) <= length s)%nat.
Proof.
  induction s as [|c s IH]; simpl; [done|].
  destruct (isJSONWhiteSpace c); simpl; lia.
Qed.

Lemma skipWS_cons_length (s rest : jsstring) (c : N) :
  skipWS s = c :: rest -> (length rest < length s)%nat.
Proof.
  intros H. pose proof (skipWS_length s) as Hl. rewrite H in Hl. simpl in Hl. lia.
Qed.

Lemma parseChars_length (s str r : jsstring) :
  parseChars s = Some (str, r) -> (length r < length s)%nat.
Proof.
  assert (H : forall n s str r, (length s <= n)%nat ->
            parseChars s = Some (str, r) -> (length r < length s)%nat).
  { clear. induction n as [|n IH]; intros [|c s] str r Hlen; simpl in Hlen;
      try done; try lia.
    cbn [parseChars].
    destruct (c =? quotationMark)%N.
    { intros [= _ <-]. simpl. lia. }
    destruct (c =? reverseSolidus)%N.
    - destruct s as [|e s]; [done|].
      destruct (e =? ch "u")%N.
      + destruct s as [|h1 [|h2 [|h3 [|h4 s]]]]; try done.
        destruct (hex4Value h1 h2 h3 h4); [|done].
        destruct (parseChars s) as [[str' r']|] eqn:Hp; [|done].
        intros [= _ <-]. apply IH in Hp; simpl in *; lia.
      + destruct (unescape e); [|done].
        destruct (parseChars s) as [[str' r']|] eqn:Hp; [|done].
        intros [= _ <-]. apply IH in Hp; simpl in *; lia.
    - destruct (c <? 32)%N; [done|].
      destruct (parseChars s) as [[str' r']|] eqn:Hp; [|done].
      intros [= _ <-]. apply IH in Hp; simpl in *; lia. }
  by apply (H (length s)).
Qed.

Lemma takeDigits_length (s : jsstring) :
  (length (snd (takeDigits s)) <= length s)%nat.
Proof.
  induction s as [|c s IH]; simpl; [done|].
  destruct (isDigit c); [|simpl; lia].
  destruct (takeDigits s) as [ds r]. simpl in *. lia.
Qed.

Lemma expect_length (lit s r : jsstring) :
  expect lit s = Some r -> (length r <= length s)%nat.
Proof.
  revert s. induction lit as [|l lit IH]; intros s; simpl.
  - by intros [= ->].
  - destruct s as [|c s]; [done|]. destruct (c =? l)%N; [|done].
    intros H%IH. simpl. lia.
Qed.

Lemma takeSign_length (s : jsstring) : (length (snd (takeSign s)) <= length s)%nat.
Proof.
  destruct s as [|c r]; cbn [takeSign]; [done|].
  destruct (c =? ch "-")%N; simpl; lia.
Qed.

Lemma takeInt_length (s int r : jsstring) :
  takeInt s = Some (int, r) -> (length r < length s)%nat.
Proof.
  destruct s as [|c s]; cbn [takeInt]; [done|].
  destruct (c =? ch "0")%N; [intros [= _ <-]; simpl; lia|].
  destruct (isDigit c); [|done].
  pose proof (takeDigits_length s) as H. destruct (takeDigits s) as [ds r'].
  intros [= _ <-]. simpl in *. lia.
Qed.

Lemma takeFrac_length (s fr r : jsstring) :
  takeFrac s = Some (fr, r) -> (length r <= length s)%nat.
Proof.
  destruct s as [|p s]; cbn [takeFrac]; [by intros [= _ <-]|].
  destruct (p =? ch ".")%N; [|by intros [= _ <-]].
  pose proof (takeDigits_length s) as H. destruct (takeDigits s) as [[|d ds] r']; [done|].
  intros [= _ <-]. simpl in *. lia.
Qed.

Lemma takeExp_length (s ex r : jsstring) :
  takeExp s = Some (ex, r) -> (length r <= length s)%nat.
Proof.
  destruct s as [|e s]; cbn [takeExp]; [by intros [= _ <-]|].
  destruct ((e =? ch "e") || (e =? ch "E"))%N; [|by intros [= _ <-]].
  assert (H : exists esign r1,
    match s with
    | g :: r' => if ((g =? ch "+") || (g =? ch "-"))%N then ([g], r') else ([], s)
    | [] => ([], s)
    end = (esign, r1) /\ (length r1 <= length s)%nat).
  { destruct s as [|g r']; [by eexists _, _|].
    destruct ((g =? ch "+") || (g =? ch "-"))%N; eexists _, _; split; try done.
    simpl. lia. }
  destruct H as (esign & r1 & -> & Hr1).
  pose proof (takeDigits_length r1) as H. destruct (takeDigits r1) as [[|d ds] r2]; [done|].
  intros [= _ <-]. simpl in *. lia.
Qed.

Lemma parseNumber_length (s lit r : jsstring) :
  parseNumber s = Some (lit, r) -> (length r < length s)%nat.
Proof.
  unfold parseNumber. pose proof (takeSign_length s) as Hs.
  destruct (takeSign s) as [sign s1]. simpl in Hs.
  destruct (takeInt s1) as [[int s2]|] eqn:Hi; [|done]. apply takeInt_length in Hi.
  destruct (takeFrac s2) as [[fr s3]|] eqn:Hf; [|done]. apply takeFrac_length in Hf.
  destruct (takeExp s3) as [[ex s4]|] eqn:He; [|done]. apply takeExp_length in He.
  intros [= _ <-]. lia.
Qed.

Section Bounds.
Variables pv pv' : jsstring -> option (json * jsstring).
Hypothesis pv_consumes : consumes pv.

Lemma pv_nil : pv [] = None.
Proof.
  destruct (pv []) as [[v r]|] eqn:H; [|done].
  apply pv_consumes in H. simpl in H. lia.
Qed.

Lemma parseElements_length (k : nat) (s r : jsstring) (vs : list json) :
  parseElements pv k s = Some (vs, r) -> (length r < length s)%nat.
Proof.
  revert s vs. induction k as [|k IH]; intros s vs; cbn [parseElements]; [done|].
  destruct (pv s) as [[v rest]|] eqn:Hv; [|done]. apply pv_consumes in Hv.
  destruct (skipWS rest) as [|c rest1] eqn:Hw; [done|].
  apply skipWS_cons_length in Hw.
  destruct (c =? ch ",")%N.
  - destruct (parseElements pv k rest1) as [[vs' r']|] eqn:Hp; [|done].
    intros [= _ <-]. apply IH in Hp. lia.
  - destruct (c =? ch "]")%N; [|done]. intros [= _ <-]. lia.
Qed.

Lemma parseMembers_length (k : nat) (s r : jsstring) (ms : list (jsstring * json)) :
  parseMembers pv k s = Some (ms, r) -> (length r < length s)%nat.
Proof.
  revert s ms. induction k as [|k IH]; intros s ms; cbn [parseMembers]; [done|].
  destruct (skipWS s) as [|q rest] eqn:Hq; [done|]. apply skipWS_cons_length in Hq.
  destruct (q =? quotationMark)%N; [|done].
  destruct (parseChars rest) as [[key rest1]|] eqn:Hk; [|done].
  apply parseChars_length in Hk.
  destruct (skipWS rest1) as [|colon rest2] eqn:Hc; [done|].
  apply skipWS_cons_length in Hc.
  destruct (colon =? ch ":")%N; [|done].
  destruct (pv rest2) as [[v rest3]|] eqn:Hv; [|done]. apply pv_consumes in Hv.
  destruct (skipWS rest3) as [|c rest4] eqn:Hw; [done|].
  apply skipWS_cons_length in Hw.
  destruct (c =? ch ",")%N.
  - destruct (parseMembers pv k rest4) as [[ms' r']|] eqn:Hp; [|done].
    intros [= _ <-]. apply IH in Hp. lia.
  - destruct (c =? ch "}")%N; [|done]. intros [= _ <-]. lia.
Qed.

Variable n : nat.
Hypothesis pv_agree : forall s, (length s <= n)%nat -> pv s = pv' s.

Lemma parseElements_bound (k k' : nat) (s : jsstring) :
  (length s <= n)%nat -> (length s <= k)%nat -> (length s <= k')%nat ->
  parseElements pv k s = parseElements pv' k' s.
Proof.
  revert k' s. induction k as [|k IH]; intros k' s Hn Hk Hk'.
  - destruct s; [|simpl in Hk; lia].
    destruct k'; cbn [parseElements]; [done|].
    by rewrite <- pv_agree, pv_nil by (simpl; lia).
  - destruct k' as [|k'].
    { destruct s; [|simpl in Hk'; lia]. cbn [parseElements]. by rewrite pv_nil. }
    cbn [parseElements]. rewrite <- pv_agree by done.
    destruct (pv s) as [[v rest]|] eqn:Hv; [|done]. apply pv_consumes in Hv.
    destruct (skipWS rest) as [|c rest1] eqn:Hw; [done|].
    apply skipWS_cons_length in Hw.
    destruct (c =? ch ",")%N; [|done].
    by rewrite (IH k' rest1) by lia.
Qed.

Lemma parseMembers_bound (k k' : nat) (s : jsstring) :
  (length s <= n)%nat -> (length s <= k)%nat -> (length s <= k')%nat ->
  parseMembers pv k s = parseMembers pv' k' s.
Proof.
  revert k' s. induction k as [|k IH]; intros k' s Hn Hk Hk'.
  - destruct s; [|simpl in Hk; lia]. by destruct k'.
  - destruct k' as [|k'].
    { destruct s; [|simpl in Hk'; lia]. done. }
    cbn [parseMembers].
    destruct (skipWS s) as [|q rest] eqn:Hq; [done|]. apply skipWS_cons_length in Hq.
    destruct (q =? quotationMark)%N; [|done].
    destruct (parseChars rest) as [[key rest1]|] eqn:Hkey; [|done].
    apply parseChars_length in Hkey.
    destruct (skipWS rest1) as [|colon rest2] eqn:Hc; [done|].
    apply skipWS_cons_length in Hc.
    destruct (colon =? ch ":")%N; [|done].
    rewrite <- pv_agree by lia.
    destruct (pv rest2) as [[v rest3]|] eqn:Hv; [|done]. apply pv_consumes in Hv.
    destruct (skipWS rest3) as [|c rest4] eqn:Hw; [done|].
    apply skipWS_cons_length in Hw.
    destruct (c =? ch ",")%N; [|done].
    by rewrite (IH k' rest4) by lia.
Qed.

End Bounds.

Lemma parseValue_consumes (d : nat) : consumes (parseValue d).
Proof.
  induction d as [|d IH]; intros s v r; cbn [parseValue]; [done|].
  destruct (skipWS s) as [|c rest] eqn:Hs; [done|]. apply skipWS_cons_length in Hs.
  destruct (c =? ch "{")%N.
  { destruct (skipWS rest) as [|c1 rest1] eqn:Hw; [done|].
    apply skipWS_cons_length in Hw.
    destruct (c1 =? ch "}")%N; [intros [= _ <-]; lia|].
    destruct (parseMembers (parseValue d) (length rest) rest) as [[ms r']|] eqn:Hp;
      [|done].
    intros [= _ <-]. apply (parseMembers_length _ IH) in Hp. lia. }
  destruct (c =? ch "[")%N.
  { destruct (skipWS rest) as [|c1 rest1] eqn:Hw; [done|].
    apply skipWS_cons_length in Hw.
    destruct (c1 =? ch "]")%N; [intros [= _ <-]; lia|].
    destruct (parseElements (parseValue d) (length rest) rest) as [[vs r']|] eqn:Hp;
      [|done].
    intros [= _ <-]. apply (parseElements_length _ IH) in Hp. lia. }
  destruct (c =? quotationMark)%N.
  { destruct (parseChars rest) as [[str r']|] eqn:Hp; [|done].
    intros [= _ <-]. apply parseChars_length in Hp. lia. }
  destruct (c =? ch "t")%N.
  { destruct (expect (js "rue") rest) as [r'|] eqn:Hp; [|done].
    intros [= _ <-]. apply expect_length in Hp. lia. }
  destruct (c =? ch "f")%N.
  { destruct (expect (js "alse") rest) as [r'|] eqn:Hp; [|done].
    intros [= _ <-]. apply expect_length in Hp. lia. }
  destruct (c =? ch "n")%N.
  { destruct (expect (js "ull") rest) as [r'|] eqn:Hp; [|done].
    intros [= _ <-]. apply expect_length in Hp. lia. }
  destruct (parseNumber (c :: rest)) as [[lit r']|] eqn:Hp; [|done].
  intros [= _ <-]. apply parseNumber_length in Hp. simpl in Hp. lia.
Qed.

Lemma parseValue_bound (n : nat) :
  forall (s : jsstring) (d d' : nat),
    (length s <= n)%nat -> (n < d)%nat -> (n < d')%nat ->
    parseValue d s = parseValue d' s.
Proof.
  induction n as [|n IH]; intros s d d' Hs Hd Hd';
    (destruct d as [|d]; [lia|]); (destruct d' as [|d']; [lia|]).
  - destruct s; [reflexivity | simpl in Hs; lia].
  - cbn [parseValue].
    destruct (skipWS s) as [|c rest] eqn:Hw; [done|]. apply skipWS_cons_length in Hw.
    assert (Hagree : forall t, (length t <= n)%nat -> parseValue d t = parseValue d' t).
    { intros t Ht. apply IH; lia. }
    rewrite (parseMembers_bound (parseValue d) (parseValue d')
               (parseValue_consumes d) n Hagree (length rest) (length rest) rest)
      by lia.
    rewrite (parseElements_bound (parseValue d) (parseValue d')
               (parseValue_consumes d) n Hagree (length rest) (length rest) rest)
      by lia.
    reflexivity.
Qed.

(** [JSON_parse] gives the parser the smallest bounds that are safe: with
    any larger nesting bound the text is read the same way. *)
Lemma JSON_parse_bound (text : jsstring) (d : nat) :
  (length text < d)%nat ->
  parseValue d text = parseValue (S (length text)) text.
Proof. intros Hd. apply (parseValue_bound (length text)); lia. Qed.

(** A text nested as deep as it is long is still read. *)
Example JSON_parse_nested :
  JSON_parse (js "[[[[[[[[]]]]]]]]")
  = Some (JArray [JArray [JArray [JArray [JArray [JArray [JArray [JArray []]]]]]]]).
Proof. vm_compute. reflexivity. Qed.

(** Likewise for the number of entries: a bound beyond the length of the
    text is as good as any larger one. *)
Lemma parseElements_entries (pv : jsstring -> option (json * jsstring))
    (k k' : nat) (s : jsstring) :
  consumes pv -> (length s <= k)%nat -> (length s <= k')%nat ->
  parseElements pv k s = parseElements pv k' s.
Proof.
  intros Hc Hk Hk'.
  by apply (parseElements_bound pv pv Hc (length s)).
Qed.

Lemma parseMembers_entries (pv : jsstring -> option (json * jsstring))
    (k k' : nat) (s : jsstring) :
  consumes pv -> (length s <= k)%nat -> (length s <= k')%nat ->
  parseMembers pv k s = parseMembers pv k' s.
Proof.
  intros Hc Hk Hk'.
  by apply (parseMembers_bound pv pv Hc (length s)).
Qed.

(** * Further properties of the handlers *)

(** ** Titles *)

Lemma trimStart_fixed (s : jsstring) :
  (forall c rest, s = c :: rest -> isTrimmed c = false) -> trimStart s = s.
Proof.
  destruct s as [|c s]; [done|]. intros H. simpl. by rewrite (H c s).
Qed.

Lemma trim_idempotent (s : jsstring) : trim (trim s) = trim s.
Proof.
  assert (Hstart : trimStart (trim s) = trim s).
  { apply trimStart_fixed. intros c rest. apply trim_head. }
  unfold trim at 1. rewrite Hstart. unfold trimEnd.
  rewrite trimStart_fixed; [apply rev_involutive|].
  intros c rest Hrev. apply (trim_last s c (rev rest)).
  rewrite <- (rev_involutive (trim s)), Hrev. reflexivity.
Qed.

Lemma Forall_sublist {A : Type} (P : A -> Prop) (l k : list A) :
  Forall P k -> l `sublist_of` k -> Forall P l.
Proof.
  rewrite !Forall_forall. intros H Hsub x Hx. apply H.
  by apply (elem_of_sublist l k).
Qed.

Lemma step_titles (o : op) (st st' : AppState) :
  isHydrate o = false ->
  Forall trimmedTitle (tasks st) ->
  step o st = Rendered st' ->
  Forall trimmedTitle (tasks st').
Proof.
  intros Ho Hall Hstep.
  destruct o as [storage|rawTitle now|id0|id0|]; simpl in *; [done|..];
    injection Hstep as <-.
  - unfold addTask. simpl. destruct (trim rawTitle) as [|c r] eqn:Ht; [done|].
    simpl. constructor; [|done]. split; simpl; [done|].
    rewrite <- Ht. apply trim_idempotent.
  - unfold toggleTask. simpl. rewrite Forall_forall in *. intros t Ht.
    apply list_elem_of_In, in_map_iff in Ht as [u [<- Hu]].
    apply list_elem_of_In, Hall in Hu. by case_bool_decide.
  - eapply Forall_sublist; [exact Hall | apply filter_sublist].
  - eapply Forall_sublist; [exact Hall | apply filter_sublist].
Qed.

(** X1.  Every task the handlers have built has a title that is not empty
    and carries no white space at either end: true of every list reached
    from the empty one without hydration. *)
Theorem titles_trimmed (ops : list op) (st : AppState) :
  existsb isHydrate ops = false ->
  run ops initialState = Rendered st ->
  Forall trimmedTitle (tasks st).
Proof.
  assert (H : forall ops st0 st,
    existsb isHydrate ops = false -> Forall trimmedTitle (tasks st0) ->
    run ops st0 = Rendered st -> Forall trimmedTitle (tasks st)).
  { clear. induction ops as [|o ops IH]; intros st0 st Hh Hall Hrun; simpl in *.
    - by injection Hrun as <-.
    - apply orb_false_elim in Hh as [Ho Hh].
      destruct (step o st0) as [st1|v] eqn:Hstep; [|done].
      apply (IH st1 st Hh); [|done]. by apply (step_titles o st0). }
  intros Hh. apply H; [done|constructor].
Qed.

Lemma titles_trimmed_witness :
  existsb isHydrate [AddTask (js "  Buy milk ") 1700000000000; ToggleTask (js "1700000000000")]
  = false
  /\ Forall trimmedTitle
       [{| id := js "1700000000000"; title := js "Buy milk"; completed := true |}].
Proof.
  split; [reflexivity|].
  apply (titles_trimmed
           [AddTask (js "  Buy milk ") 1700000000000; ToggleTask (js "1700000000000")]
           {| tasks := [{| id := js "1700000000000"; title := js "Buy milk";
                           completed := true |}];
              inputValue := []; filter := All |});
    reflexivity.
Defined.

(** ** [addTask] once more *)

(** X2.  Submitting twice.  The handler a render creates reads the input
    of that render.  Once the component has rendered again after a task was
    added, the input is empty and the handler of the new render adds
    nothing, whatever the clock says.  The handler of the old render,
    called a second time before the component has rendered again, still
    reads the old input and adds the task a second time. *)
Theorem addTask_resubmit (now now' : Z) (st : AppState) :
  addTaskFrom st now st = addTask now st
  /\ addTaskFrom (addTask now st) now' (addTask now st) = addTask now st
  /\ (trim (inputValue st) <> [] ->
      tasks (addTaskFrom st now' (addTask now st))
      = {| id := Number_toString now'; title := trim (inputValue st);
           completed := false |}
        :: {| id := Number_toString now; title := trim (inputValue st);
              completed := false |}
        :: tasks st).
Proof.
  split; [reflexivity|]. split.
  - unfold addTaskFrom, addTask.
    destruct (trim (inputValue st)) as [|c r] eqn:Ht; simpl.
    + by rewrite Ht.
    + reflexivity.
  - intros Ht. unfold addTaskFrom, addTask.
    by destruct (trim (inputValue st)) as [|c r].
Qed.

Lemma addTask_resubmit_witness :
  trim (inputValue (setInputValue (js "Buy milk") initialState)) <> []
  /\ tasks (addTaskFrom (setInputValue (js "Buy milk") initialState) 1700000000000
              (addTask 1700000000000 (setInputValue (js "Buy milk") initialState)))
     = [{| id := js "1700000000000"; title := js "Buy milk"; completed := false |};
        {| id := js "1700000000000"; title := js "Buy milk"; completed := false |}].
Proof.
  split; [discriminate|].
  exact (proj2 (proj2 (addTask_resubmit 1700000000000 1700000000000
                         (setInputValue (js "Buy milk") initialState)))
           ltac:(discriminate)).
Defined.

(** The ids of the list run through the clock readings of the sequence
    from the last to the first. *)
Lemma run_ids_order (ops : list op) (st st' : AppState) :
  existsb isHydrate ops = false ->
  run ops st = Rendered st' ->
  map id (tasks st')
    `sublist_of` rev (map Number_toString (clocks ops)) ++ map id (tasks st).
Proof.
  revert st. induction ops as [|o ops IH]; intros st Hh Hrun; simpl in *.
  - by injection Hrun as <-.
  - apply orb_false_elim in Hh as [Ho Hh].
    destruct o as [storage|rawTitle now|id0|id0|]; simpl in *; [done|..];
      specialize (IH _ Hh Hrun).
    + rewrite addTask_ids in IH. rewrite <- app_assoc. simpl.
      etrans; [exact IH|]. apply sublist_app; [done|].
      destruct (truthy (trim rawTitle)); [done|]. by apply sublist_cons.
    + by rewrite toggleTask_ids in IH.
    + etrans; [exact IH|]. apply sublist_app; [done|apply deleteTask_ids].
    + etrans; [exact IH|]. apply sublist_app; [done|apply clearCompleted_ids].
Qed.

(** X3.  Newest first: without hydration the ids of the list, read from
    the top, are renderings of the clock readings at which tasks were
    submitted, in the reverse of the order of submission. *)
Theorem newest_first (ops : list op) (st : AppState) :
  existsb isHydrate ops = false ->
  run ops initialState = Rendered st ->
  map id (tasks st) `sublist_of` rev (map Number_toString (clocks ops)).
Proof.
  intros Hh Hrun. pose proof (run_ids_order ops initialState st Hh Hrun) as H.
  simpl in H. by rewrite app_nil_r in H.
Qed.

Lemma newest_first_witness :
  existsb isHydrate
    [AddTask (js "Buy milk") 1700000000000; AddTask (js "   ") 1700000000001;
     AddTask (js "Write report") 1700000000002; DeleteTask (js "1700000000003")] = false
  /\ [js "1700000000002"; js "1700000000000"]
       `sublist_of` [js "1700000000002"; js "1700000000001"; js "1700000000000"].
Proof.
  split; [reflexivity|].
  apply (newest_first
           [AddTask (js "Buy milk") 1700000000000; AddTask (js "   ") 1700000000001;
            AddTask (js "Write report") 1700000000002; DeleteTask (js "1700000000003")]
           {| tasks := [{| id := js "1700000000002"; title := js "Write report";
                           completed := false |};
                        {| id := js "1700000000000"; title := js "Buy milk";
                           completed := false |}];
              inputValue := []; filter := All |});
    reflexivity.
Defined.

(** ** How the handlers compose *)

Lemma state_eq (st st' : AppState) :
  tasks st = tasks st' -> inputValue st = inputValue st' -> filter st = filter st' ->
  st = st'.
Proof. destruct st, st'. simpl. by intros -> -> ->. Qed.

Lemma filter_filter_comm {A : Type} (f g : A -> bool) (l : list A) :
  List.filter f (List.filter g l) = List.filter g (List.filter f l).
Proof.
  induction l as [|x l IH]; simpl; [done|].
  destruct (f x) eqn:Hf, (g x) eqn:Hg; simpl; rewrite ?Hf, ?Hg, ?IH; done.
Qed.

Lemma toggleTask_deleteTask (a b : jsstring) (st : AppState) :
  toggleTask a (deleteTask b st) = deleteTask b (toggleTask a st).
Proof.
  apply state_eq; try done. simpl.
  induction (tasks st) as [|[i t c] l IH]; simpl; [done|].
  destruct (bool_decide (i = a)) eqn:Ha, (bool_decide (i = b)) eqn:Hb;
    simpl; rewrite ?Ha, ?Hb; simpl; by rewrite ?IH.
Qed.

(** X4.  Two presses can be taken in either order when they are two
    toggles, two deletions, a toggle and a deletion (of the same task or of
    different ones), or a deletion and Clear. *)
Theorem handlers_commute (a b : jsstring) (st : AppState) :
  toggleTask a (toggleTask b st) = toggleTask b (toggleTask a st)
  /\ deleteTask a (deleteTask b st) = deleteTask b (deleteTask a st)
  /\ toggleTask a (deleteTask b st) = deleteTask b (toggleTask a st)
  /\ clearCompleted (deleteTask a st) = deleteTask a (clearCompleted st).
Proof.
  split; [|split; [|split; [apply toggleTask_deleteTask|]]];
    apply state_eq; try done; simpl.
  - rewrite !map_map. apply map_ext. intros [i t c]. simpl.
    destruct (bool_decide (i = a)) eqn:Ha, (bool_decide (i = b)) eqn:Hb;
      simpl; rewrite ?Ha, ?Hb; done.
  - apply filter_filter_comm.
  - apply filter_filter_comm.
Qed.

Lemma filter_twice {A : Type} (f : A -> bool) (l : list A) :
  List.filter f (List.filter f l) = List.filter f l.
Proof.
  apply filter_all. intros x Hx. by apply filter_In in Hx as [_ Hx].
Qed.

(** X5.  After [deleteTask id0] no task carries [id0]; deleting again
    changes nothing, and neither does a toggle that arrives late for the
    deleted task. *)
Theorem deleteTask_gone (id0 : jsstring) (st : AppState) :
  (id0 ∉ map id (tasks (deleteTask id0 st)))
  /\ deleteTask id0 (deleteTask id0 st) = deleteTask id0 st
  /\ toggleTask id0 (deleteTask id0 st) = deleteTask id0 st.
Proof.
  assert (Hgone : id0 ∉ map id (tasks (deleteTask id0 st))).
  { intros Hin. apply list_elem_of_In, in_map_iff in Hin as [t [Hid Ht]].
    apply list_elem_of_In, deleteTask_elem in Ht as [_ Ht]. done. }
  split; [exact Hgone|]. split.
  - apply state_eq; try done. apply filter_twice.
  - by apply toggleTask_unknown.
Qed.

(** ** The Clear button *)

Lemma completedCount_zero (st : AppState) :
  completedCount st = 0 <-> Forall (fun task => completed task = false) (tasks st).
Proof.
  unfold completedCount. rewrite Forall_forall. split.
  - intros H t Ht. destruct (completed t) eqn:Hc; [|done].
    assert (Hin : In t (List.filter (fun task => completed task) (tasks st))).
    { apply filter_In. split; [by apply list_elem_of_In|done]. }
    destruct (List.filter _ (tasks st)); [done|]. simpl in H. lia.
  - intros H.
    assert (List.filter (fun task => completed task) (tasks st) = []) as ->; [|done].
    destruct (List.filter _ (tasks st)) as [|t l] eqn:Hf; [done|].
    assert (Hin : In t (List.filter (fun task => completed task) (tasks st))).
    { rewrite Hf. by left. }
    apply filter_In in Hin as [Hin Hc].
    apply list_elem_of_In, H in Hin. congruence.
Qed.

Lemma clearCompleted_fixed (st : AppState) :
  clearCompleted st = st <-> Forall (fun task => completed task = false) (tasks st).
Proof.
  split.
  - intros H. rewrite <- H. apply Forall_forall. intros t Ht.
    unfold clearCompleted in Ht. simpl in Ht.
    apply list_elem_of_In, filter_In in Ht as [_ Ht]. by apply negb_true_iff.
  - intros H. apply state_eq; try done. simpl. apply filter_all.
    intros t Ht. apply negb_true_iff. rewrite Forall_forall in H.
    by apply H, list_elem_of_In.
Qed.

(** X6.  The Clear button is disabled exactly when pressing it would
    change nothing, which is exactly when the Completed view is empty; and
    once [clearCompleted] has run, the button is disabled. *)
Theorem clear_button (st : AppState) :
  (clearDisabled st = true <-> clearCompleted st = st)
  /\ (clearDisabled st = true <-> filteredTasks (setFilter Completed st) = [])
  /\ clearDisabled (clearCompleted st) = true.
Proof.
  unfold clearDisabled. rewrite !Z.eqb_eq. split; [|split].
  - by rewrite completedCount_zero, clearCompleted_fixed.
  - unfold completedCount, filteredTasks. simpl.
    destruct (List.filter _ (tasks st)); simpl; split; intros; (done || lia).
  - apply completedCount_zero, Forall_forall. intros t Ht.
    unfold clearCompleted in Ht. simpl in Ht.
    apply list_elem_of_In, filter_In in Ht as [_ Ht]. by apply negb_true_iff.
Qed.

(** ** The views *)

Lemma filter_partition {A : Type} (f : A -> bool) (l : list A) :
  List.filter (fun x => negb (f x)) l ++ List.filter f l ≡ₚ l.
Proof.
  induction l as [|x l IH]; simpl; [done|].
  destruct (f x); simpl.
  - rewrite <- Permutation_middle. by constructor.
  - by constructor.
Qed.

(** X7.  The Active view and the Completed view split the list: together
    they hold every task as often as the list does, and no task is in both. *)
Theorem views_partition (st : AppState) :
  filteredTasks (setFilter Active st) ++ filteredTasks (setFilter Completed st)
    ≡ₚ tasks st
  /\ (forall t, t ∈ filteredTasks (setFilter Active st) ->
                t ∉ filteredTasks (setFilter Completed st)).
Proof.
  unfold filteredTasks. simpl. split.
  - apply (filter_partition (fun task => completed task)).
  - intros t. rewrite !list_elem_of_In, !filter_In, negb_true_iff.
    intros [_ H1] [_ H2]. congruence.
Qed.

Lemma views_partition_witness :
  {| id := js "1700000000040"; title := js "task"; completed := false |}
    ∉ filteredTasks (setFilter Completed
                       (toggleTask (js "1700000000040") fortyTasks)).
Proof.
  apply (proj2 (views_partition (toggleTask (js "1700000000040") fortyTasks))).
  apply list_elem_of_In. vm_compute. left. reflexivity.
Defined.

(** X8.  [keyExtractor] gives the rows of the list pairwise distinct keys
    whenever the ids of the stored list are pairwise distinct, under every
    filter. *)
Theorem keys_distinct (st : AppState) :
  NoDup (map id (tasks st)) -> NoDup (map id (filteredTasks st)).
Proof.
  intros Hnd. unfold filteredTasks.
  destruct (filter st); [done| |];
    (eapply sublist_NoDup; [exact Hnd | apply filter_ids_sublist]).
Qed.

Lemma keys_distinct_witness :
  NoDup (map id (tasks fortyTasks))
  /\ NoDup (map id (filteredTasks (setFilter Completed fortyTasks))).
Proof.
  assert (H : NoDup (map id (tasks fortyTasks))).
  { apply (bool_decide_unpack _). vm_compute. exact I. }
  split; [exact H|].
  exact (keys_distinct (setFilter Completed fortyTasks) H).
Defined.

(** X9.  A task that has just been added is the first row under All and
    under Active; under Completed it is not shown and the view is as before. *)
Theorem addTask_shown (now : Z) (st : AppState) :
  trim (inputValue st) <> [] ->
  (filter st <> Completed ->
   filteredTasks (addTask now st)
   = {| id := Number_toString now; title := trim (inputValue st); completed := false |}
       :: filteredTasks st)
  /\ (filter st = Completed -> filteredTasks (addTask now st) = filteredTasks st).
Proof.
  intros Ht. unfold addTask, filteredTasks.
  destruct (trim (inputValue st)) as [|c r]; [done|]. simpl.
  split; intros Hf; destruct (filter st); done.
Qed.

Lemma addTask_shown_witness :
  trim (inputValue (setInputValue (js " Call home ") (setFilter Completed collided))) <> []
  /\ filteredTasks
       (addTask 1700000000005
          (setInputValue (js " Call home ") (setFilter Completed collided)))
     = filteredTasks (setInputValue (js " Call home ") (setFilter Completed collided)).
Proof.
  split; [discriminate|].
  apply (proj2 (addTask_shown 1700000000005
                  (setInputValue (js " Call home ") (setFilter Completed collided))
                  ltac:(discriminate))).
  reflexivity.
Defined.

(** ** Toggling a row *)

Lemma NoDup_ids_eq (l : list TodoItem) (x y : TodoItem) :
  NoDup (map id l) -> x ∈ l -> y ∈ l -> id x = id y -> x = y.
Proof.
  intros Hnd [i Hi]%list_elem_of_lookup [j Hj]%list_elem_of_lookup Hid.
  assert (i = j) as -> by (by apply (NoDup_ids_lookup l i j x y)).
  congruence.
Qed.

Lemma toggleTask_insert (st : AppState) (i : nat) (t : TodoItem) :
  NoDup (map id (tasks st)) ->
  tasks st !! i = Some t ->
  tasks (toggleTask (id t) st)
  = <[i := {| id := id t; title := title t; completed := negb (completed t) |}]>
      (tasks st).
Proof.
  intros Hnd Hi. apply list_eq. intros j.
  destruct (decide (j = i)) as [->|Hne].
  - rewrite list_lookup_insert_eq by (by apply lookup_lt_Some in Hi).
    rewrite (toggleTask_lookup _ _ _ _ Hi). by rewrite bool_decide_true.
  - rewrite list_lookup_insert_ne by done.
    destruct (tasks st !! j) as [u|] eqn:Hu.
    + rewrite (toggleTask_lookup _ _ _ _ Hu). case_bool_decide as Heq; [|done].
      exfalso. apply Hne. by apply (NoDup_ids_lookup (tasks st) j i u t).
    + apply lookup_ge_None in Hu. apply lookup_ge_None.
      unfold toggleTask. simpl. by rewrite length_map.
Qed.

Lemma filter_length_app {A : Type} (f : A -> bool) (l k : list A) :
  length (List.filter f (l ++ k))
  = (length (List.filter f l) + length (List.filter f k))%nat.
Proof. by rewrite List.filter_app, length_app. Qed.

(** X10.  In a list with pairwise distinct ids, toggling a task moves
    exactly one unit between the two counts: an active task becomes one
    more completed task, a completed task one more active task; the total
    stays. *)
Theorem toggleTask_counts (st : AppState) (i : nat) (t : TodoItem) :
  NoDup (map id (tasks st)) ->
  tasks st !! i = Some t ->
  totalCount (toggleTask (id t) st) = totalCount st
  /\ completedCount (toggleTask (id t) st)
     = completedCount st + (if completed t then -1 else 1)
  /\ activeCount (toggleTask (id t) st)
     = activeCount st - (if completed t then -1 else 1).
Proof.
  intros Hnd Hi.
  assert (Htotal : totalCount (toggleTask (id t) st) = totalCount st).
  { unfold totalCount, toggleTask. simpl. by rewrite length_map. }
  assert (Hcompleted : completedCount (toggleTask (id t) st)
                       = completedCount st + (if completed t then -1 else 1)).
  { unfold completedCount. rewrite (toggleTask_insert st i t Hnd Hi).
    pose proof (lookup_lt_Some _ _ _ Hi) as Hlt.
    rewrite insert_take_drop by done.
    rewrite <- (take_drop_middle (tasks st) i t Hi) at 3.
    rewrite !filter_length_app. simpl. destruct (completed t); simpl; lia. }
  unfold activeCount. rewrite Htotal, Hcompleted. repeat split. lia.
Qed.

Lemma toggleTask_counts_witness :
  NoDup (map id (tasks fortyTasks))
  /\ completedCount (toggleTask (js "1700000000040") fortyTasks)
     = completedCount fortyTasks + -1.
Proof.
  assert (H : NoDup (map id (tasks fortyTasks))).
  { apply (bool_decide_unpack _). vm_compute. exact I. }
  split; [exact H|].
  exact (proj1 (proj2 (toggleTask_counts fortyTasks 0
    {| id := js "1700000000040"; title := js "task"; completed := true |}
    H eq_refl))).
Defined.

Lemma toggle_view (f : TodoItem -> bool) (t : TodoItem) (l : list TodoItem) :
  (forall x, id x = id t -> x ∈ l -> x = t) ->
  f {| id := id t; title := title t; completed := negb (completed t) |} = false ->
  List.filter f
    (map (fun task =>
            if bool_decide (id task = id t)
            then {| id := id task; title := title task;
                    completed := negb (completed task) |}
            else task) l)
  = List.filter f (List.filter (fun task => negb (bool_decide (id task = id t))) l).
Proof.
  intros Hsame Hf. induction l as [|x l IH]; simpl; [done|].
  rewrite IH by (intros y Hy Hin; apply Hsame; [done|by right]).
  case_bool_decide as Hx; simpl; [|done].
  assert (x = t) as -> by (apply Hsame; [done|left]).
  by rewrite Hf.
Qed.

(** X11.  Under Active and under Completed, with pairwise distinct ids,
    pressing a row takes that row out of the view and leaves the other rows
    as they are: the view is the one [deleteTask] would give. *)
Theorem toggle_leaves_view (st : AppState) (row : nat) (t : TodoItem) :
  NoDup (map id (tasks st)) ->
  filter st <> All ->
  filteredTasks st !! row = Some t ->
  filteredTasks (toggleTask (id t) st) = filteredTasks (deleteTask (id t) st).
Proof.
  intros Hnd Hf Hrow.
  assert (Hin : t ∈ filteredTasks st) by (by apply list_elem_of_lookup; exists row).
  assert (Hsame : forall x, id x = id t -> x ∈ tasks st -> x = t).
  { intros x Hid Hx. apply (NoDup_ids_eq (tasks st)); try done.
    apply (elem_of_sublist (filteredTasks st)); [done|].
    unfold filteredTasks. destruct (filter st); [done|apply filter_sublist..]. }
  unfold filteredTasks in *. simpl.
  destruct (filter st); [done| |].
  - apply list_elem_of_In, filter_In in Hin as [_ Hc].
    apply (toggle_view (fun task => negb (completed task))); [done|].
    simpl. by rewrite Hc.
  - apply list_elem_of_In, filter_In in Hin as [_ Hc].
    apply (toggle_view (fun task => completed task)); [done|].
    simpl. by rewrite Hc.
Qed.

Lemma toggle_leaves_view_witness :
  NoDup (map id (tasks fortyTasks))
  /\ filter (setFilter Completed fortyTasks) <> All
  /\ filteredTasks (toggleTask (js "1700000000040") (setFilter Completed fortyTasks))
     = filteredTasks (deleteTask (js "1700000000040") (setFilter Completed fortyTasks)).
Proof.
  assert (H : NoDup (map id (tasks fortyTasks))).
  { apply (bool_decide_unpack _). vm_compute. exact I. }
  split; [exact H|]. split; [discriminate|].
  exact (toggle_leaves_view (setFilter Completed fortyTasks) 0
           {| id := js "1700000000040"; title := js "task"; completed := true |}
           H ltac:(discriminate) eq_refl).
Defined.

(** X12.  On every list of fewer than forty tasks the percentage shown is
    [100 * completed / total] rounded to the nearest integer, a half
    rounding up (and 0 for the empty list). *)
Theorem completionRate_small (st : AppState) :
  (length (tasks st) < 40)%nat ->
  completionRate st = Number_of_Z (spec_completionRate st).
Proof.
  intros Hlen. rewrite completionRate_rateOf. unfold spec_completionRate.
  pose proof (completedCount_le st) as Hc. unfold totalCount in *.
  rewrite <- (Z2Nat.id (completedCount st)) by lia.
  apply (ratesAgreeBelow_sound 40); [apply ratesAgreeBelow_40 | lia | lia].
Qed.

Lemma completionRate_small_witness :
  (length (tasks (clearCompleted fortyTasks)) < 40)%nat
  /\ completionRate (clearCompleted fortyTasks)
     = Number_of_Z (spec_completionRate (clearCompleted fortyTasks)).
Proof.
  split; [vm_compute; lia|].
  apply (completionRate_small (clearCompleted fortyTasks)).
  vm_compute. lia.
Defined.

(** * Further properties of loading and saving *)

Lemma storage_eq (d d' : AsyncStorage) :
  reachable d = reachable d' -> items d = items d' -> d = d'.
Proof. destruct d, d'. simpl. by intros -> ->. Qed.

Lemma saveData_reachable (l : list TodoItem) (d : AsyncStorage) :
  reachable (saveData l d) = reachable d.
Proof. unfold saveData, setItem. by destruct (reachable d) eqn:H. Qed.

Lemma saveData_saveData (l l' : list TodoItem) (d : AsyncStorage) :
  saveData l' (saveData l d) = saveData l' d.
Proof.
  unfold saveData, setItem. destruct (reachable d) eqn:H; simpl; [|by rewrite H].
  apply storage_eq; [done|]. simpl. apply insert_insert_eq.
Qed.

Lemma saveData_other_key (l : list TodoItem) (d : AsyncStorage) (k : jsstring) :
  k <> STORAGE_KEY -> items (saveData l d) !! k = items d !! k.
Proof.
  intros Hk. unfold saveData, setItem. destruct (reachable d); [|done].
  simpl. by apply lookup_insert_ne.
Qed.

Lemma saveData_same (l : list TodoItem) (d : AsyncStorage) :
  items d !! STORAGE_KEY = Some (JSON_stringify l) -> saveData l d = d.
Proof.
  intros H. unfold saveData, setItem. destruct (reachable d) eqn:Hr; [|done].
  apply storage_eq; [done|]. simpl. by apply insert_id.
Qed.

(** X13.  [saveData] writes the one key of the app and no other, the last
    save wins over the one before it, and with the storage out of reach it
    changes nothing. *)
Theorem saveData_writes (l l' : list TodoItem) (d : AsyncStorage) :
  (forall k, k <> STORAGE_KEY -> items (saveData l d) !! k = items d !! k)
  /\ saveData l' (saveData l d) = saveData l' d
  /\ (reachable d = true ->
      items (saveData l d) !! STORAGE_KEY = Some (JSON_stringify l))
  /\ (reachable d = false -> saveData l d = d).
Proof.
  split; [intros k; apply saveData_other_key|].
  split; [apply saveData_saveData|].
  split; [intros Hr; by apply saveData_stored | apply saveData_unreachable].
Qed.

Lemma saveData_writes_witness :
  reachable {| reachable := true; items := {[ js "theme" := js "dark" ]} |} = true
  /\ items (saveData (tasks collided)
              {| reachable := true; items := {[ js "theme" := js "dark" ]} |})
       !! STORAGE_KEY
     = Some (JSON_stringify (tasks collided)).
Proof.
  split; [reflexivity|].
  exact (proj1 (proj2 (proj2 (saveData_writes (tasks collided) []
           {| reachable := true; items := {[ js "theme" := js "dark" ]} |})))
         eq_refl).
Defined.

(** X14.  What [saveData] wrote, [loadData] installs: with the storage in
    reach, loading after saving a list gives that list, whatever list was
    on the screen, and keeps the input and the filter of the screen. *)
Theorem saved_then_loaded (l : list TodoItem) (d : AsyncStorage) (st : AppState) :
  reachable d = true ->
  loadData (saveData l d) st
  = Rendered {| tasks := l; inputValue := inputValue st; filter := filter st |}.
Proof.
  intros Hr. destruct (saveData_stored l d Hr) as [Hr' Hitem].
  rewrite (loadData_installs _ st (JSON_stringify l) l); try done.
  apply deserialize_serialize_list.
Qed.

Lemma saved_then_loaded_witness :
  reachable {| reachable := true; items := ∅ |} = true
  /\ loadData (saveData (tasks collided) {| reachable := true; items := ∅ |})
       initialState
     = Rendered collided.
Proof.
  split; [reflexivity|].
  exact (saved_then_loaded (tasks collided) {| reachable := true; items := ∅ |}
           initialState eq_refl).
Defined.

(** X15.  The text that is saved determines the list: two lists with the
    same text are the same list. *)
Theorem JSON_stringify_inj (l l' : list TodoItem) :
  JSON_stringify l = JSON_stringify l' -> l = l'.
Proof.
  intros H. pose proof (deserialize_serialize_list l) as Hl.
  rewrite H, deserialize_serialize_list in Hl. congruence.
Qed.

Lemma JSON_stringify_inj_witness :
  JSON_stringify (tasks collided) = JSON_stringify (tasks (toggleTask [] collided))
  /\ tasks collided = tasks (toggleTask [] collided).
Proof.
  split; [reflexivity|].
  apply (JSON_stringify_inj (tasks collided) (tasks (toggleTask [] collided))).
  reflexivity.
Defined.

(** X16.  Loading is repeatable: on a storage that has not changed, a
    second [loadData] gives the state the first one gave; and a load never
    touches the input or the filter. *)
Theorem loadData_again (d : AsyncStorage) (st st' : AppState) :
  loadData d st = Rendered st' ->
  loadData d st' = Rendered st'
  /\ inputValue st' = inputValue st
  /\ filter st' = filter st.
Proof.
  intros H. pose proof (loadData_filter d st st' H) as [Hf Hi].
  split; [|done]. revert H. unfold loadData.
  destruct (getItem STORAGE_KEY d) as [|[blob|]]; try by intros [= <-].
  destruct (truthy blob); [|by intros [= <-]].
  destruct (JSON_parse blob) as [v|]; [|by intros [= <-]].
  destruct (asTodoItems v) as [l|]; [|done].
  by intros [= <-].
Qed.

Lemma loadData_again_witness :
  loadData (saveData (tasks collided) {| reachable := true; items := ∅ |})
    (setFilter Active initialState)
  = Rendered (setFilter Active collided)
  /\ loadData (saveData (tasks collided) {| reachable := true; items := ∅ |})
       (setFilter Active collided)
     = Rendered (setFilter Active collided).
Proof.
  assert (H : loadData (saveData (tasks collided) {| reachable := true; items := ∅ |})
                (setFilter Active initialState)
              = Rendered (setFilter Active collided)).
  { vm_compute. reflexivity. }
  split; [exact H|].
  exact (proj1 (loadData_again _ _ _ H)).
Defined.

(** * The screen and the storage together *)

Lemma dispatch_reachable (e : event) (w : World) :
  reachable (disk (dispatch e w)) = reachable (disk w).
Proof.
  unfold dispatch, commit, tasksEffect.
  destruct e as [text|now|row|row|f|]; simpl; try done.
  - destruct (truthy _); [apply saveData_reachable|done].
  - destruct (_ !! row); [apply saveData_reachable|done].
  - destruct (_ !! row); [apply saveData_reachable|done].
  - destruct (clearDisabled _); [done|apply saveData_reachable].
Qed.

Lemma runEvents_reachable (es : list event) (w : World) :
  reachable (disk (runEvents es w)) = reachable (disk w).
Proof.
  revert w. induction es as [|e es IH]; intros w; simpl; [done|].
  by rewrite IH, dispatch_reachable.
Qed.

Lemma commit_synced (st : AppState) (w : World) :
  reachable (disk w) = true -> synced (commit st w).
Proof. intros Hr. unfold synced, commit, tasksEffect. simpl. by apply saveData_stored. Qed.

Lemma dispatch_synced (e : event) (w : World) :
  reachable (disk w) = true -> synced w -> synced (dispatch e w).
Proof.
  intros Hr Hs. unfold dispatch.
  destruct e as [text|now|row|row|f|]; simpl; try done.
  - destruct (truthy _); [by apply commit_synced|done].
  - destruct (_ !! row); [by apply commit_synced|done].
  - destruct (_ !! row); [by apply commit_synced|done].
  - destruct (clearDisabled _); [done|by apply commit_synced].
Qed.

Lemma runEvents_synced (es : list event) (w : World) :
  reachable (disk w) = true -> synced w -> synced (runEvents es w).
Proof.
  revert w. induction es as [|e es IH]; intros w Hr Hs; simpl; [done|].
  apply IH; [by rewrite dispatch_reachable | by apply dispatch_synced].
Qed.

Lemma mount_synced (d : AsyncStorage) (w : World) :
  reachable d = true -> mount d = Some w ->
  reachable (disk w) = true /\ synced w.
Proof.
  unfold mount, tasksEffect. intros Hr.
  destruct (loadData d initialState) as [st|v] eqn:Hload; [|done].
  intros [= <-]. simpl. unfold synced. simpl.
  destruct (hydrated d) eqn:Hh.
  - rewrite !saveData_reachable. split; [done|].
    apply saveData_stored. by rewrite saveData_reachable.
  - rewrite saveData_reachable. split; [done|].
    assert (tasks st = []) as ->; [|by apply saveData_stored].
    revert Hload Hh. unfold loadData, hydrated.
    destruct (getItem STORAGE_KEY d) as [|[blob|]]; try by intros [= <-].
    destruct (truthy blob); [|by intros [= <-]].
    destruct (JSON_parse blob) as [v|]; [|by intros [= <-]].
    done.
Qed.

Lemma synced_writtenByApp (w : World) : synced w -> writtenByApp (disk w).
Proof.
  unfold synced, writtenByApp. intros ->. right. by eexists.
Qed.

(** X17.  With the storage in reach and holding, at the first render,
    nothing, a text that is not JSON or a text the app saved: from the
    first render on and after every event, the storage holds the text of
    the list on the screen, and so again a text the app saved. *)
Theorem always_synced (d : AsyncStorage) (w : World) (es : list event) :
  reachable d = true ->
  writtenByApp d ->
  mount d = Some w ->
  synced (runEvents es w) /\ writtenByApp (disk (runEvents es w)).
Proof.
  intros Hr _ Hm. destruct (mount_synced d w Hr Hm) as [Hr' Hs].
  assert (synced (runEvents es w)) by (by apply runEvents_synced).
  split; [done|by apply synced_writtenByApp].
Qed.

Lemma always_synced_witness :
  reachable {| reachable := true; items := ∅ |} = true
  /\ writtenByApp {| reachable := true; items := ∅ |}
  /\ synced (runEvents [ChangeText (js " Buy milk"); Submit 1700000000000;
                        PressFilter Active; PressTask 0]
               {| screen := initialState;
                  disk := saveData [] {| reachable := true; items := ∅ |} |}).
Proof.
  assert (Hw : writtenByApp {| reachable := true; items := ∅ |}) by exact I.
  split; [reflexivity|]. split; [exact Hw|].
  apply (always_synced {| reachable := true; items := ∅ |} _ _ eq_refl Hw).
  reflexivity.
Defined.

Lemma JSON_stringify_truthy (l : list TodoItem) : truthy (JSON_stringify l) = true.
Proof. reflexivity. Qed.

Lemma restart_synced (w : World) :
  reachable (disk w) = true -> synced w ->
  mount (disk w)
  = Some {| screen := {| tasks := tasks (screen w); inputValue := []; filter := All |};
            disk := disk w |}.
Proof.
  intros Hr Hs. unfold synced in Hs. unfold mount, tasksEffect.
  rewrite (loadData_installs (disk w) initialState _ (tasks (screen w)) Hr Hs)
    by apply deserialize_serialize_list.
  assert (hydrated (disk w) = true) as ->.
  { unfold hydrated, getItem. rewrite Hr, Hs, JSON_stringify_truthy.
    by rewrite JSON_parse_stringify. }
  simpl. rewrite saveData_saveData. by rewrite saveData_same.
Qed.

(** X18.  Tasks survive a restart, the filter and the input do not.  A
    session starts with the storage in reach and holding nothing, a text
    that is not JSON or a text the app saved.  When it is closed after any
    events and the app is started again on the storage it left, the list
    is the one that was on the screen, the filter is All, the input is
    empty and the storage is as it was left. *)
Theorem restart_restores (d : AsyncStorage) (w : World) (es : list event) :
  reachable d = true ->
  writtenByApp d ->
  mount d = Some w ->
  mount (disk (runEvents es w))
  = Some {| screen := {| tasks := tasks (screen (runEvents es w));
                         inputValue := []; filter := All |};
            disk := disk (runEvents es w) |}.
Proof.
  intros Hr _ Hm. destruct (mount_synced d w Hr Hm) as [Hr' Hs].
  apply restart_synced.
  - by rewrite runEvents_reachable.
  - by apply runEvents_synced.
Qed.

Lemma restart_restores_witness :
  reachable {| reachable := true; items := ∅ |} = true
  /\ writtenByApp {| reachable := true; items := ∅ |}
  /\ option_map (fun w => tasks (screen w))
       (mount (disk (runEvents [ChangeText (js " Buy milk"); Submit 1700000000000;
                                PressFilter Active; ChangeText (js "Wri")]
                       {| screen := initialState;
                          disk := saveData [] {| reachable := true; items := ∅ |} |})))
     = Some [{| id := js "1700000000000"; title := js "Buy milk"; completed := false |}].
Proof.
  assert (Hw : writtenByApp {| reachable := true; items := ∅ |}) by exact I.
  split; [reflexivity|]. split; [exact Hw|].
  rewrite (restart_restores {| reachable := true; items := ∅ |}
             {| screen := initialState;
                disk := saveData [] {| reachable := true; items := ∅ |} |}
             _ eq_refl Hw);
    reflexivity.
Defined.

(** X19.  The first render when nothing can be restored.  With the storage
    out of reach the screen starts empty and the storage is left alone.
    With the storage in reach and no stored text, or a stored text that is
    not JSON, the screen starts empty and the stored text is replaced by
    the text of the empty list. *)
Theorem mount_fallback (d : AsyncStorage) :
  (reachable d = false -> mount d = Some {| screen := initialState; disk := d |})
  /\ (reachable d = true ->
      (items d !! STORAGE_KEY = None
       \/ exists blob, items d !! STORAGE_KEY = Some blob /\ JSON_parse blob = None) ->
      mount d = Some {| screen := initialState; disk := saveData [] d |}
      /\ items (saveData [] d) !! STORAGE_KEY = Some (js "[]")).
Proof.
  unfold mount, tasksEffect. split.
  - intros Hr. rewrite (loadData_rejected d _ Hr).
    unfold hydrated, getItem. rewrite Hr. simpl. by rewrite saveData_unreachable.
  - intros Hr Hblob. split; [|by apply saveData_stored].
    destruct Hblob as [Hnone|[blob [Hblob Hparse]]].
    + rewrite (loadData_absent d _ Hnone).
      unfold hydrated, getItem. by rewrite Hr, Hnone.
    + rewrite (loadData_syntax_error d _ blob Hblob Hparse).
      unfold hydrated, getItem. rewrite Hr, Hblob, Hparse. by rewrite andb_false_r.
Qed.

Lemma mount_fallback_witness :
  reachable {| reachable := true;
               items := {[ STORAGE_KEY := (ch "[" :: ch "{" :: js "id") ]} |} = true
  /\ option_map (fun w => items (disk w) !! STORAGE_KEY)
       (mount {| reachable := true;
                 items := {[ STORAGE_KEY := (ch "[" :: ch "{" :: js "id") ]} |})
     = Some (Some (js "[]")).
Proof.
  split; [reflexivity|].
  destruct (proj2 (mount_fallback
    {| reachable := true;
       items := {[ STORAGE_KEY := (ch "[" :: ch "{" :: js "id") ]} |})
    eq_refl) as [Hm Hitem].
  - right. exists (ch "[" :: ch "{" :: js "id"). split; [|reflexivity].
    apply lookup_singleton_eq.
  - rewrite Hm. exact (f_equal Some Hitem).
Defined.

Lemma dispatch_screen (e : event) (w : World) (d : AsyncStorage) :
  screen (dispatch e {| screen := screen w; disk := d |}) = screen (dispatch e w).
Proof.
  unfold dispatch, commit. destruct e as [text|now|row|row|f|]; simpl; try done.
  - by destruct (truthy _).
  - by destruct (_ !! row).
  - by destruct (_ !! row).
  - by destruct (clearDisabled _).
Qed.

Lemma dispatch_other_key (e : event) (w : World) (k : jsstring) :
  k <> STORAGE_KEY -> items (disk (dispatch e w)) !! k = items (disk w) !! k.
Proof.
  intros Hk. unfold dispatch, commit, tasksEffect.
  destruct e as [text|now|row|row|f|]; simpl; try done.
  - destruct (truthy _); [by apply saveData_other_key|done].
  - destruct (_ !! row); [by apply saveData_other_key|done].
  - destruct (_ !! row); [by apply saveData_other_key|done].
  - destruct (clearDisabled _); [done|by apply saveData_other_key].
Qed.

Lemma dispatch_offline (e : event) (w : World) :
  reachable (disk w) = false -> disk (dispatch e w) = disk w.
Proof.
  intros Hr. unfold dispatch, commit, tasksEffect.
  destruct e as [text|now|row|row|f|]; simpl; try done.
  - destruct (truthy _); [by apply saveData_unreachable|done].
  - destruct (_ !! row); [by apply saveData_unreachable|done].
  - destruct (_ !! row); [by apply saveData_unreachable|done].
  - destruct (clearDisabled _); [done|by apply saveData_unreachable].
Qed.

(** X20.  What the events never do: they never touch another key of the
    storage, they write nothing while the storage is out of reach, and the
    screen they lead to does not depend on what the storage holds. *)
Theorem events_and_storage (es : list event) (w : World) :
  (forall k, k <> STORAGE_KEY ->
     items (disk (runEvents es w)) !! k = items (disk w) !! k)
  /\ (reachable (disk w) = false -> disk (runEvents es w) = disk w)
  /\ (forall d, screen (runEvents es {| screen := screen w; disk := d |})
                = screen (runEvents es w)).
Proof.
  split; [|split].
  - revert w. induction es as [|e es IH]; intros w k Hk; simpl; [done|].
    rewrite IH by done. by apply dispatch_other_key.
  - revert w. induction es as [|e es IH]; intros w Hr; simpl; [done|].
    rewrite IH by (by rewrite dispatch_reachable). by apply dispatch_offline.
  - revert w. induction es as [|e es IH]; intros w d; simpl; [done|].
    rewrite <- (IH (dispatch e w) (disk (dispatch e {| screen := screen w; disk := d |}))).
    f_equal. rewrite <- (dispatch_screen e w d).
    by destruct (dispatch e {| screen := screen w; disk := d |}).
Qed.

Lemma events_and_storage_witness :
  reachable {| reachable := false; items := {[ STORAGE_KEY := js "[]" ]} |} = false
  /\ disk (runEvents [ChangeText (js "Buy milk"); Submit 1700000000000; PressTask 0]
             {| screen := initialState;
                disk := {| reachable := false;
                           items := {[ STORAGE_KEY := js "[]" ]} |} |})
     = {| reachable := false; items := {[ STORAGE_KEY := js "[]" ]} |}.
Proof.
  split; [reflexivity|].
  exact (proj1 (proj2 (events_and_storage
    [ChangeText (js "Buy milk"); Submit 1700000000000; PressTask 0]
    {| screen := initialState;
       disk := {| reachable := false; items := {[ STORAGE_KEY := js "[]" ]} |} |}))
    eq_refl).
Defined.

(** ** Presses on rows *)

Lemma filteredTasks_elem (st : AppState) (row : nat) (t : TodoItem) :
  filteredTasks st !! row = Some t -> t ∈ tasks st.
Proof.
  intros H. apply (elem_of_sublist (filteredTasks st)).
  - apply list_elem_of_lookup. by exists row.
  - unfold filteredTasks. destruct (filter st); [done|apply filter_sublist..].
Qed.

(** X21.  A press on a row acts on the task that row shows.  With pairwise
    distinct ids, pressing the row flips that task where it stands and
    changes no other task; pressing its Delete button removes that task and
    no other, so the list gets shorter by exactly one.  Where no row is
    shown a press does nothing. *)
Theorem press_row (w : World) (row : nat) :
  (forall t,
     NoDup (map id (tasks (screen w))) ->
     filteredTasks (screen w) !! row = Some t ->
     (exists i,
        tasks (screen w) !! i = Some t
        /\ tasks (screen (dispatch (PressTask row) w))
           = <[i := {| id := id t; title := title t;
                       completed := negb (completed t) |}]> (tasks (screen w)))
     /\ (forall u, u ∈ tasks (screen (dispatch (PressDelete row) w))
                   <-> u ∈ tasks (screen w) /\ u <> t)
     /\ S (length (tasks (screen (dispatch (PressDelete row) w))))
        = length (tasks (screen w)))
  /\ (filteredTasks (screen w) !! row = None ->
      dispatch (PressTask row) w = w /\ dispatch (PressDelete row) w = w).
Proof.
  split.
  - intros t Hnd Hrow. pose proof (filteredTasks_elem _ _ _ Hrow) as Hin.
    unfold dispatch, commit. rewrite Hrow. cbn [screen]. split; [|split].
    + apply list_elem_of_lookup in Hin as [i Hi]. exists i.
      split; [done|by apply toggleTask_insert].
    + intros u. rewrite deleteTask_elem. split; intros [Hu Hne]; split; try done.
      * by intros ->.
      * intros Hid. apply Hne. by apply (NoDup_ids_eq (tasks (screen w))).
    + pose proof (deleteTask_length (id t) (screen w)) as Hlen.
      pose proof (filter_key_NoDup id (id t) (tasks (screen w)) Hnd) as Hle.
      assert (Hone : In t (List.filter (fun task => bool_decide (id task = id t))
                             (tasks (screen w)))).
      { apply filter_In. split; [by apply list_elem_of_In|by apply bool_decide_true]. }
      destruct (List.filter _ (tasks (screen w))) as [|x [|y l]];
        simpl in *; [done|lia|lia].
  - intros Hrow. unfold dispatch. by rewrite Hrow.
Qed.

Lemma press_row_witness :
  NoDup (map id (tasks fortyTasks))
  /\ S (length (tasks (screen (dispatch (PressDelete 3)
          {| screen := setFilter Active fortyTasks;
             disk := {| reachable := true; items := ∅ |} |}))))
     = 40%nat.
Proof.
  assert (H : NoDup (map id (tasks fortyTasks))).
  { apply (bool_decide_unpack _). vm_compute. exact I. }
  split; [exact H|].
  exact (proj2 (proj2 (proj1 (press_row
    {| screen := setFilter Active fortyTasks;
       disk := {| reachable := true; items := ∅ |} |} 3)
    {| id := js "1700000000014"; title := js "task"; completed := false |}
    H eq_refl))).
Defined.

(** ** What [addTask] rejects *)

Lemma trim_nil (s : jsstring) : trim s = [] <-> forallb isTrimmed s = true.
Proof.
  split; [|apply trim_whitespace].
  intros H. destruct (trim_decompose s) as (pre & post & Hs & Hpre & Hpost).
  rewrite H in Hs. rewrite Hs. simpl. by rewrite forallb_app, Hpre, Hpost.
Qed.

(** X22.  [addTask] leaves the state as it is exactly when the input is
    made of white space and line terminators only, the empty input
    included.  Otherwise the title of the task it puts in front is the
    input without the run of such characters at each end, the inside kept
    as typed: the input is that title between two such runs, and the title
    neither starts nor ends with such a character. *)
Theorem addTask_rejects (now : Z) (st : AppState) :
  (addTask now st = st <-> forallb isTrimmed (inputValue st) = true)
  /\ (forallb isTrimmed (inputValue st) = false ->
      exists pre t post,
        inputValue st = pre ++ t ++ post
        /\ forallb isTrimmed pre = true /\ forallb isTrimmed post = true
        /\ t <> []
        /\ (forall c rest, t = c :: rest -> isTrimmed c = false)
        /\ (forall c front, t = front ++ [c] -> isTrimmed c = false)
        /\ tasks (addTask now st)
           = {| id := Number_toString now; title := t; completed := false |}
               :: tasks st).
Proof.
  split.
  - rewrite <- trim_nil. unfold addTask.
    destruct (trim (inputValue st)) as [|c r]; simpl; [done|].
    split; [|done]. intros H. apply (f_equal (fun s => length (tasks s))) in H.
    simpl in H. lia.
  - intros Hws.
    assert (Hne : trim (inputValue st) <> []).
    { intros H. apply trim_nil in H. congruence. }
    destruct (trim_decompose (inputValue st)) as (pre & post & Hs & Hpre & Hpost).
    exists pre, (trim (inputValue st)), post.
    split; [done|]. split; [done|]. split; [done|]. split; [done|].
    split; [apply trim_head|]. split; [apply trim_last|].
    unfold addTask. by destruct (trim (inputValue st)).
Qed.

Lemma addTask_rejects_witness :
  forallb isTrimmed (inputValue (setInputValue (js "  Buy  milk ") initialState)) = false
  /\ exists pre t post,
       js "  Buy  milk " = pre ++ t ++ post
       /\ forallb isTrimmed pre = true /\ forallb isTrimmed post = true
       /\ t <> []
       /\ (forall c rest, t = c :: rest -> isTrimmed c = false)
       /\ (forall c front, t = front ++ [c] -> isTrimmed c = false)
       /\ tasks (addTask 1700000000000
                   (setInputValue (js "  Buy  milk ") initialState))
          = [{| id := Number_toString 1700000000000; title := t; completed := false |}].
Proof.
  split; [reflexivity|].
  exact (proj2 (addTask_rejects 1700000000000
                  (setInputValue (js "  Buy  milk ") initialState))
           eq_refl).
Defined.
